(** * audio2mp4: the subtitle timeline pipeline of scripts/generate-video.js

    A shallow embedding of the pure part of [generate-video.js]: the word
    normalisation ([loadWords]), the grouping of words into subtitle chunks
    ([buildChunks]), the karaoke expansion done in [main], the SVG description
    of one frame ([escapeXml], [buildSvg]) and the concat timeline
    ([buildConcatFile]).

    Conventions.
    - A JavaScript number is an exact rational ([Q]); comparisons are the
      exact ones.  Counts ([maxChunkSize], [maxWordsPerLine], array lengths)
      are natural numbers.
    - A JavaScript object is a record; a field that may be missing is an
      [option], [None] standing for [undefined].
    - [a || d] on a possibly missing value is [or_num], [or_nat], [or_str]:
      the default is taken when the value is missing or falsy (0, empty
      string).
    - [push] appends at the end of the array: [l ++ [x]].
    - A template literal is kept as the values it interpolates: a line of
      the concat file is a [Line], an SVG document an [Svg]; a duration is
      the number the code computes, which the file shows with four
      decimals. *)

From Stdlib Require Import String Ascii DecimalString DecimalNat Bool Arith ZArith QArith Qround Lia Lqa List.
Import ListNotations.

Local Open Scope Q_scope.

(** ** JavaScript helpers *)

Definition Qlt_bool (x y : Q) : bool := negb (Qle_bool y x).

(** [v || d] for a number: [undefined] and [0] are falsy. *)
Definition or_num (v : option Q) (d : Q) : Q :=
  match v with
  | Some q => if Qeq_bool q 0 then d else q
  | None => d
  end.

(** [v || d] for a count. *)
Definition or_nat (v : option nat) (d : nat) : nat :=
  match v with
  | Some O => d
  | Some n => n
  | None => d
  end.

(** [v || d] for a string: [undefined] and the empty string are falsy. *)
Definition or_str (v : option string) (d : string) : string :=
  match v with
  | Some EmptyString => d
  | Some s => s
  | None => d
  end.

(** [Math.max(a, b)]. *)
Definition Math_max (a b : Q) : Q := if Qle_bool a b then b else a.

(** ** Data *)

(** One entry of words.json: [{ word, start, end }]. *)
Record Word : Type := mkWord {
  w_word  : string;
  w_start : Q;
  w_end   : Q
}.

(** A subtitle chunk [{ words, start, end }]; the karaoke frames built in
    [main] are chunks that also carry [activeStart] and [activeEnd]. *)
Record Chunk : Type := mkFrame {
  words       : list Word;
  start       : Q;
  end_        : Q;
  activeStart : option Q;
  activeEnd   : option Q
}.

(** The object literal [{ words, start, end }]. *)
Definition mkChunk (ws : list Word) (s e : Q) : Chunk :=
  {| words := ws; start := s; end_ := e; activeStart := None; activeEnd := None |}.

(** The style file: every field is optional. *)
Record Style : Type := mkStyle {
  video_width          : option Q;
  video_height         : option Q;
  video_fps            : option Q;
  background_color     : option string;
  text_fontFamily      : option string;
  text_fontWeight      : option string;
  text_fontSize        : option Q;
  text_color           : option string;
  text_strokeColor     : option string;
  text_strokeWidth     : option Q;
  text_lineHeight      : option Q;
  text_maxWordsPerLine : option nat;
  text_positionY       : option Q;
  text_maxChunkSize    : option nat;
  highlight_color      : option string;
  highlight_strokeColor : option string;
  animation_pauseThreshold : option Q
}.

(** The style [{}]: nothing configured. *)
Definition emptyStyle : Style :=
  mkStyle None None None None None None None None None None None None None
          None None None None.

(** ** Chunk grouping: [buildChunks] *)

Definition pauseThreshold_of (style : Style) : Q :=
  or_num (animation_pauseThreshold style) (3 # 10).

Definition maxChunkSize_of (style : Style) : nat :=
  or_nat (text_maxChunkSize style) 4.

(** The state of the grouping loop: the closed [chunks] and the open
    [current] chunk. *)
Definition GroupState : Type := (list Chunk * list Word)%type.

(** One iteration of the [for] loop of [buildChunks]. *)
Definition chunkStep (pauseThreshold : Q) (maxChunkSize : nat)
           (st : GroupState) (w : Word) : GroupState :=
  let '(chunks, current) := st in
  match current with
  | [] => (chunks, [w])
  | c0 :: _ =>
      let prev := last current c0 in
      let gap := w_start w - w_end prev in
      let isNaturalPause := Qlt_bool pauseThreshold gap in
      let isFull := (maxChunkSize <=? length current)%nat in
      if isNaturalPause || isFull
      then (chunks ++ [mkChunk current (w_start c0) (w_end prev)], [w])
      else (chunks, current ++ [w])
  end.

(** The flush after the loop. *)
Definition flushChunks (st : GroupState) : list Chunk :=
  let '(chunks, current) := st in
  match current with
  | [] => chunks
  | c0 :: _ => chunks ++ [mkChunk current (w_start c0) (w_end (last current c0))]
  end.

Definition groupWords (pauseThreshold : Q) (maxChunkSize : nat)
           (ws : list Word) : list Chunk :=
  flushChunks (fold_left (chunkStep pauseThreshold maxChunkSize) ws ([], [])).

Definition buildChunks (ws : list Word) (style : Style) (mode : string)
  : list Chunk :=
  let pauseThreshold := pauseThreshold_of style in
  let maxChunkSize := maxChunkSize_of style in
  if String.eqb mode "word"
  then map (fun w => mkChunk [w] (w_start w) (w_end w)) ws
  else groupWords pauseThreshold maxChunkSize ws.

(** ** Karaoke expansion (in [main]) *)

(** [{ ...chunk, activeStart: wo.start, activeEnd: wo.end, start: wo.start,
    end: wo.end }]: the spread keeps [words]; the four other fields are
    overwritten. *)
Definition karaokeFrame (chunk : Chunk) (wo : Word) : Chunk :=
  {| words := words chunk;
     start := w_start wo;
     end_ := w_end wo;
     activeStart := Some (w_start wo);
     activeEnd := Some (w_end wo) |}.

(** The inner loop [for (const wo of chunk.words) frames.push(...)]. *)
Definition expandChunk (frames : list Chunk) (chunk : Chunk) : list Chunk :=
  fold_left (fun fr wo => fr ++ [karaokeFrame chunk wo]) (words chunk) frames.

(** The frame list of [main]: expanded for karaoke, the chunks themselves
    otherwise. *)
Definition buildFrames (mode : string) (chunks : list Chunk) : list Chunk :=
  if String.eqb mode "karaoke" && (0 <? length chunks)%nat
  then fold_left expandChunk chunks []
  else chunks.

(** ** SVG generation *)

(** The double quote character. *)
Definition dquote : ascii := Eval cbv in ascii_of_nat 34.

(** [s.replace(/c/g, rep)] for a one-character pattern. *)
Fixpoint replaceAll (c : ascii) (rep : string) (s : string) : string :=
  match s with
  | EmptyString => EmptyString
  | String a rest =>
      if Ascii.eqb a c
      then (rep ++ replaceAll c rep rest)%string
      else String a (replaceAll c rep rest)
  end.

Definition escapeXml (str : string) : string :=
  replaceAll "'" "&apos;"
    (replaceAll dquote "&quot;"
       (replaceAll ">" "&gt;"
          (replaceAll "<" "&lt;"
             (replaceAll "&" "&amp;" str)))).

(** [RTL_LANGS] and [isRTL]. *)
Definition RTL_LANGS : list string := ["ar"; "he"; "fa"; "ur"; "yi"; "dv"]%string.

Definition lowerChar (c : ascii) : ascii :=
  let n := nat_of_ascii c in
  if ((65 <=? n) && (n <=? 90))%nat then ascii_of_nat (n + 32) else c.

Fixpoint toLowerCase (s : string) : string :=
  match s with
  | EmptyString => EmptyString
  | String c r => String (lowerChar c) (toLowerCase r)
  end.

(** [s.split('-')[0]]. *)
Fixpoint beforeDash (s : string) : string :=
  match s with
  | EmptyString => EmptyString
  | String c r => if Ascii.eqb c "-" then EmptyString else String c (beforeDash r)
  end.

Definition isRTL (lang : string) : bool :=
  match lang with
  | EmptyString => false
  | _ => existsb (String.eqb (beforeDash (toLowerCase lang))) RTL_LANGS
  end.

(** The highlight test of the karaoke branch of [buildSvg]:
    [(wo.start <= (activeEnd || wo.end)) && (wo.end >= (activeStart || wo.start))]. *)
Definition isActive (chunk : Chunk) (wo : Word) : bool :=
  Qle_bool (w_start wo) (or_num (activeEnd chunk) (w_end wo))
  && Qle_bool (or_num (activeStart chunk) (w_start wo)) (w_end wo).

(** One [<text>] element: the values interpolated into the template. *)
Record TextElement : Type := mkText {
  te_x            : Q;
  te_y            : Q;
  te_font_family  : string;
  te_font_weight  : string;
  te_font_size    : Q;
  te_fill         : string;
  te_stroke       : string;
  te_stroke_width : Q;
  te_direction    : string;
  te_content      : string
}.

(** The [<svg>] document: the values interpolated into the template.
    [svg_lang] is the value of the [lang] attribute, [None] when the
    attribute is left out. *)
Record Svg : Type := mkSvg {
  svg_width  : Q;
  svg_height : Q;
  svg_lang   : option string;
  svg_bg     : string;
  svg_text   : list TextElement
}.

Definition Qlen (s : string) : Q := inject_Z (Z.of_nat (String.length s)).
Definition Qnat (n : nat) : Q := inject_Z (Z.of_nat n).

(** [for (let i = 0; i < wordObjs.length; i += maxPerLine)
       lines.push(wordObjs.slice(i, i + maxPerLine))];
    [fuel] bounds the number of iterations. *)
Fixpoint linesFrom (fuel : nat) (maxPerLine : nat) (wordObjs : list Word) (i : nat)
  : list (list Word) :=
  match fuel with
  | O => []
  | S fuel' =>
      if (i <? length wordObjs)%nat
      then firstn maxPerLine (skipn i wordObjs)
             :: linesFrom fuel' maxPerLine wordObjs (i + maxPerLine)
      else []
  end.

Definition splitLines (maxPerLine : nat) (wordObjs : list Word) : list (list Word) :=
  linesFrom (length wordObjs) maxPerLine wordObjs 0.

Definition lineTextOf (lineWords : list Word) : string :=
  String.concat " " (map w_word lineWords).

Section BuildSvg.
Variables (chunk : Chunk) (style : Style) (mode : string) (activeLang : string).

Let W := or_num (video_width style) 1080.
Let H := or_num (video_height style) 1920.
Let bg := or_str (background_color style) "#000000".
Let fontFamily := or_str (text_fontFamily style) "Arial, sans-serif".
Let fontWeight := or_str (text_fontWeight style) "bold".
Let fontSize := or_num (text_fontSize style) 90.
Let fillColor := or_str (text_color style) "#FFFFFF".
Let strokeColor := or_str (text_strokeColor style) "#000000".
Let strokeWidth := or_num (text_strokeWidth style) 12.
Let lineHeight := or_num (text_lineHeight style) (13 # 10).
Let maxPerLine := or_nat (text_maxWordsPerLine style) 2.
Let positionY := or_num (text_positionY style) (1 # 2).
Let hlColor := or_str (highlight_color style) "#FFD700".
Let hlStroke := or_str (highlight_strokeColor style) "#000000".
Let rtl := isRTL activeLang.
Let direction : string := if rtl then "rtl" else "ltr".
Let lines := splitLines maxPerLine (words chunk).
Let totalLines := Qnat (length lines).
Let lineHeightPx := fontSize * lineHeight.
Let blockHeight := totalLines * lineHeightPx.
Let startY := H * positionY - blockHeight / 2 + fontSize / 2.
Let cx := W / 2.
Let approxCharWidth := fontSize * (55 # 100).

(** The body of the inner karaoke loop: one word of a line. *)
Definition karaokeWordStep (y : Q) (st : list TextElement * Q) (wo : Word)
  : list TextElement * Q :=
  let '(textElements, xPos) := st in
  let active := isActive chunk wo in
  let wFill := if active then hlColor else fillColor in
  let wStroke := if active then hlStroke else strokeColor in
  let wText := escapeXml (w_word wo) in
  let wWidth := Qlen (w_word wo) * approxCharWidth in
  (textElements ++
     [mkText (xPos + wWidth / 2) y (escapeXml fontFamily) fontWeight fontSize
             wFill wStroke strokeWidth direction wText],
   xPos + (wWidth + approxCharWidth * (1 # 2))).

(** The body of the outer karaoke loop: line [li]. *)
Definition karaokeLineStep (st : list TextElement * nat) (lineWords : list Word)
  : list TextElement * nat :=
  let '(textElements, li) := st in
  let y := startY + Qnat li * lineHeightPx in
  let lineText := lineTextOf lineWords in
  let lineWidth := Qlen lineText * approxCharWidth in
  let xPos := cx - lineWidth / 2 in
  (fst (fold_left (karaokeWordStep y) lineWords (textElements, xPos)), S li).

(** The body of the loop of the chunk and word modes: line [li]. *)
Definition plainLineStep (st : list TextElement * nat) (lineWords : list Word)
  : list TextElement * nat :=
  let '(textElements, li) := st in
  let y := startY + Qnat li * lineHeightPx in
  let lineText := escapeXml (lineTextOf lineWords) in
  (textElements ++
     [mkText cx y (escapeXml fontFamily) fontWeight fontSize
             fillColor strokeColor strokeWidth direction lineText],
   S li).

Definition buildSvg : Svg :=
  let langAttr :=
    match activeLang with
    | EmptyString => None
    | _ => Some (escapeXml activeLang)
    end in
  let textElements :=
    if String.eqb mode "karaoke"
    then fst (fold_left karaokeLineStep lines ([], O))
    else fst (fold_left plainLineStep lines ([], O)) in
  mkSvg W H langAttr bg textElements.
End BuildSvg.

(** ** The concat timeline: [buildConcatFile] *)

(** [{ path, start, end }], one per rendered frame. *)
Record FrameFile : Type := mkFrameFile {
  path     : string;
  ff_start : Q;
  ff_end   : Q
}.

(** A line of the concat file: [file '<path>'] or [duration <d>], the
    number [d] being written with four decimals ([toFixed(4)]). *)
Inductive Line : Type :=
| FileLine (p : string)
| DurationLine (d : Q).

(** [l.startsWith('file ')]. *)
Definition isFileLine (l : Line) : bool :=
  match l with
  | FileLine _ => true
  | DurationLine _ => false
  end.

(** [arr.pop()] read as a value: the last element, [undefined] on []. *)
Definition pop {A : Type} (l : list A) : option A :=
  match l with
  | [] => None
  | x :: _ => Some (last l x)
  end.

(** One iteration of the loop over [frameFiles]; the state is
    [(lines, cursor)]. *)
Definition concatStep (blankPath : string) (st : list Line * Q) (f : FrameFile)
  : list Line * Q :=
  let '(lines, cursor) := st in
  let gapBefore := ff_start f - cursor in
  let lines1 :=
    if Qlt_bool (1 # 100) gapBefore
    then lines ++ [FileLine blankPath; DurationLine gapBefore]
    else lines in
  let duration := Math_max (ff_end f - ff_start f) (33 # 1000) in
  (lines1 ++ [FileLine (path f); DurationLine duration], ff_end f).

(** The body of the timeline: the loop and the fill to the end of the
    audio, before the trailing entry is added. *)
Definition concatBody (frameFiles : list FrameFile) (blankPath : string)
           (audioDuration : Q) : list Line :=
  let '(lines, cursor) := fold_left (concatStep blankPath) frameFiles ([], 0) in
  if Qlt_bool cursor (audioDuration - (1 # 100))
  then lines ++ [FileLine blankPath; DurationLine (audioDuration - cursor)]
  else lines.

Definition buildConcatFile (frameFiles : list FrameFile) (blankPath : string)
           (audioDuration : Q) : list Line :=
  let lines := concatBody frameFiles blankPath audioDuration in
  match pop (filter isFileLine lines) with
  | Some lastFileLine => lines ++ [lastFileLine]
  | None =>
      lines ++ [FileLine blankPath; DurationLine audioDuration; FileLine blankPath]
  end.

(** The timeline entries the concat demuxer reads from the lines: each
    [file] line followed by a [duration] line is one entry; the trailing
    [file] line carries no duration. *)
Fixpoint entries (ls : list Line) : list (string * Q) :=
  match ls with
  | [] => []
  | FileLine p :: rest =>
      match rest with
      | DurationLine d :: rest' => (p, d) :: entries rest'
      | _ => entries rest
      end
  | DurationLine _ :: rest => entries rest
  end.

Fixpoint Qsum (l : list Q) : Q :=
  match l with
  | [] => 0
  | x :: r => x + Qsum r
  end.

(** The total of the durations of a concat file. *)
Definition totalOf (ls : list Line) : Q := Qsum (map snd (entries ls)).

(** ** Loading words.json: [loadWords] and the language chosen in [main] *)

(** A parsed JSON document. *)
#[warnings="-register-all"]
Inductive Json : Type :=
| JNull
| JBool (b : bool)
| JNum (q : Q)
| JStr (s : string)
| JArr (items : list Json)
| JObj (fields : list (string * Json)).

Inductive Exn : Type :=
| ENOENT (file : string)
| SyntaxError (msg : string)
| TypeError (msg : string).

(** The outcome of a call that may throw. *)
Inductive Result (A : Type) : Type :=
| Ok (a : A)
| Throw (e : Exn).
Arguments Ok {A} a.
Arguments Throw {A} e.

Definition isThrow {A : Type} (r : Result A) : bool :=
  match r with
  | Ok _ => false
  | Throw _ => true
  end.

Section Runtime.
(** [fs.readFileSync(path, 'utf8')] and [JSON.parse] of the runtime. *)
Variable readFileSync : string -> Result string.
Variable JSON_parse : string -> Result Json.

Definition loadWords (wordsPath : string) : Result Json :=
  match readFileSync wordsPath with
  | Throw e => Throw e
  | Ok text =>
      match JSON_parse text with
      | Throw e => Throw e
      | Ok raw =>
          match raw with
          | JArr _ =>
              Ok (JObj [("language", JStr "en");
                        ("language_probability", JNum 1);
                        ("words", raw)]%string)
          | _ => Ok raw
          end
      end
  end.
End Runtime.

Fixpoint lookupField (k : string) (fields : list (string * Json)) : option Json :=
  match fields with
  | [] => None
  | (k', v) :: rest => if String.eqb k k' then Some v else lookupField k rest
  end.

(** [o.k]: reading a property of [null] throws; a missing property and a
    property of a number, boolean or string read as [undefined]. *)
Definition getProp (o : Json) (k : string) : Result (option Json) :=
  match o with
  | JNull => Throw (TypeError "Cannot read properties of null")
  | JObj fields => Ok (lookupField k fields)
  | _ => Ok None
  end.

Definition truthy (v : option Json) : bool :=
  match v with
  | None => false
  | Some JNull => false
  | Some (JBool b) => b
  | Some (JNum q) => negb (Qeq_bool q 0)
  | Some (JStr s) => negb (String.eqb s "")
  | Some (JArr _) => true
  | Some (JObj _) => true
  end.

(** [opts.lang || wordsData.language || 'en']: the document is only read
    when [--lang] is missing or empty. *)
Definition detectedLang (optLang : option string) (wordsData : Json) : Result Json :=
  match optLang with
  | Some (String c s) => Ok (JStr (String c s))
  | _ =>
      match getProp wordsData "language" with
      | Throw e => Throw e
      | Ok (Some v) => if truthy (Some v) then Ok v else Ok (JStr "en")
      | Ok None => Ok (JStr "en")
      end
  end.

(** ** The run: from the words to the concat file (the pure part of [main]) *)

Fixpoint repeatChar (n : nat) (c : ascii) : string :=
  match n with
  | O => EmptyString
  | S n' => String c (repeatChar n' c)
  end.

(** [s.padStart(n, c)]. *)
Definition padStart (n : nat) (c : ascii) (s : string) : string :=
  (repeatChar (n - String.length s) c ++ s)%string.

(** [String(i)] for an array index. *)
Definition stringOfIndex (i : nat) : string :=
  NilZero.string_of_uint (Nat.to_uint i).

(** [path.join(dir, name)] for a plain file name. *)
Definition pathJoin (dir name : string) : string := (dir ++ "/" ++ name)%string.

Definition framePath (tmpDir : string) (i : nat) : string :=
  pathJoin tmpDir ("frame_" ++ padStart 4 "0" (stringOfIndex i) ++ ".png")%string.

Definition blankPathOf (tmpDir : string) : string :=
  pathJoin tmpDir "frame_blank.png".

(** The rendering loop, as far as the timeline sees it: frame [i] is
    written to [framePath tmpDir i] and keeps its [start] and [end]. *)
Definition renderStep (tmpDir : string) (frameFiles : list FrameFile) (frame : Chunk)
  : list FrameFile :=
  frameFiles ++
    [mkFrameFile (framePath tmpDir (length frameFiles)) (start frame) (end_ frame)].

Definition renderFrames (tmpDir : string) (frames : list Chunk) : list FrameFile :=
  fold_left (renderStep tmpDir) frames [].

(** The audio duration used by [main]: the probed one ([0] when ffprobe
    could not tell), replaced by the last word's end when it is 0 and
    there are words. *)
Definition audioDurationOf (probed : Q) (ws : list Word) : Q :=
  match ws with
  | [] => probed
  | w0 :: _ => if Qeq_bool probed 0 then w_end (last ws w0) else probed
  end.

Definition chunksOfRun (ws : list Word) (style : Style) (mode : string) : list Chunk :=
  if (0 <? length ws)%nat then buildChunks ws style mode else [].

Definition framesOfRun (ws : list Word) (style : Style) (mode : string) : list Chunk :=
  buildFrames mode (chunksOfRun ws style mode).

Definition timelineOfRun (ws : list Word) (style : Style) (mode : string)
           (tmpDir : string) (probed : Q) : list Line :=
  buildConcatFile (renderFrames tmpDir (framesOfRun ws style mode))
                  (blankPathOf tmpDir) (audioDurationOf probed ws).

(** The frame rate handed to the encoder: [style.video.fps || 30]. *)
Definition fpsOf (style : Style) : Q := or_num (video_fps style) 30.

(** The hard-coded floor of a content entry's duration. *)
Definition minimumFrameDuration : Q := 33 # 1000.

(** ** Neighbours in a list *)

(** [adjacent R l]: every two neighbours of [l] are related by [R]. *)
Fixpoint adjacent {A : Type} (R : A -> A -> Prop) (l : list A) : Prop :=
  match l with
  | [] => True
  | x :: r =>
      match r with
      | [] => True
      | y :: _ => R x y /\ adjacent R r
      end
  end.

(** ** Vocabulary of the grouping loop *)

(** A chunk record agrees with its words: at least one word, [start] the
    first word's start, [end] the last word's end. *)
Definition chunk_wf (c : Chunk) : Prop :=
  words c <> [] /\
  option_map w_start (hd_error (words c)) = Some (start c) /\
  option_map w_end (pop (words c)) = Some (end_ c).

(** The next word does not open a pause. *)
Definition close_words (pauseThreshold : Q) (p n : Word) : Prop :=
  w_start n - w_end p <= pauseThreshold.

(** A group of words as the loop builds them. *)
Definition group_ok (pauseThreshold : Q) (maxChunkSize : nat) (g : list Word) : Prop :=
  g <> [] /\ (length g <= maxChunkSize)%nat /\ adjacent (close_words pauseThreshold) g.

(** The first word of [g2] closed [g1]: by a pause or by fullness. *)
Definition boundary (pauseThreshold : Q) (maxChunkSize : nat) (g1 g2 : list Word) : Prop :=
  forall p n, pop g1 = Some p -> hd_error g2 = Some n ->
    pauseThreshold < w_start n - w_end p \/ (maxChunkSize <= length g1)%nat.

(** The groups of a loop state: the closed chunks, then the open one. *)
Definition groupsOf (st : GroupState) : list (list Word) :=
  map words (fst st) ++ match snd st with [] => [] | _ :: _ => [snd st] end.

(** The invariant of the grouping loop after the words [seen]. *)
Record GroupInv (pauseThreshold : Q) (maxChunkSize : nat)
       (seen : list Word) (st : GroupState) : Prop := {
  inv_concat  : concat (groupsOf st) = seen;
  inv_records : Forall chunk_wf (fst st);
  inv_groups  : Forall (group_ok pauseThreshold maxChunkSize) (groupsOf st);
  inv_bounds  : adjacent (boundary pauseThreshold maxChunkSize) (groupsOf st);
  inv_open    : snd st = [] -> fst st = []
}.

(** ** Vocabulary of the statements *)

(** The timing of the input words as the transcription delivers it: no
    word ends before it starts and no word starts before the previous one
    has ended. *)
Definition ordered (ws : list Word) : Prop :=
  Forall (fun w => w_start w <= w_end w) ws /\
  adjacent (fun p n => w_end p <= w_start n) ws.

(** Words that start at or after time 0 and last a positive time. *)
Definition positive_words (ws : list Word) : Prop :=
  Forall (fun w => 0 <= w_start w /\ w_start w < w_end w) ws.

(** The closed intervals [[s, e]] and [[a, b]] share a point. *)
Definition intersects (s e a b : Q) : Prop :=
  exists t, s <= t /\ t <= e /\ a <= t /\ t <= b.

(** The unit of the highlight example: "this" (0.0-0.4), "is" (0.5-0.9). *)
Definition thisIs : list Word :=
  [mkWord "this" 0 (4 # 10); mkWord "is" (5 # 10) (9 # 10)].

(** The XML entity of a character, in the specification's words: the
    five special characters have an entity, every other character stands
    for itself. *)
Definition entity (c : ascii) : string :=
  if Ascii.eqb c "&" then "&amp;"
  else if Ascii.eqb c "<" then "&lt;"
  else if Ascii.eqb c ">" then "&gt;"
  else if Ascii.eqb c dquote then "&quot;"
  else if Ascii.eqb c "'" then "&apos;"
  else String c EmptyString.

(** Every character replaced by its entity, in one pass. *)
Fixpoint escapeEach (s : string) : string :=
  match s with
  | EmptyString => EmptyString
  | String c r => (entity c ++ escapeEach r)%string
  end.

Definition isMarkupChar (c : ascii) : bool :=
  Ascii.eqb c "<" || Ascii.eqb c ">" || Ascii.eqb c dquote || Ascii.eqb c "'".

Definition startsEntity (r : string) : bool :=
  prefix "amp;" r || prefix "lt;" r || prefix "gt;" r
  || prefix "quot;" r || prefix "apos;" r.

(** No raw special character: none of [<], [>], the double quote and the
    apostrophe occurs, and every [&] opens one of the five entities. *)
Fixpoint wellEscaped (s : string) : bool :=
  match s with
  | EmptyString => true
  | String c r =>
      negb (isMarkupChar c)
      && (if Ascii.eqb c "&" then startsEntity r else true)
      && wellEscaped r
  end.

(** The two escaped values of a [<text>] element. *)
Definition escapedParts (te : TextElement) : string * string :=
  (te_font_family te, te_content te).

(** The lines that spell a list of entries. *)
Definition pairsOf (es : list (string * Q)) : list Line :=
  flat_map (fun e => [FileLine (fst e); DurationLine (snd e)]) es.

(** The entries of the timeline from [cursor] on, by recursion on the
    frames: an optional filler and the frame's own entry for each frame,
    and an optional filler up to [audioDuration] at the end. *)
Fixpoint timelineFrom (blankPath : string) (audioDuration : Q) (cursor : Q)
         (frameFiles : list FrameFile) : list (string * Q) :=
  match frameFiles with
  | [] =>
      if Qlt_bool cursor (audioDuration - (1 # 100))
      then [(blankPath, audioDuration - cursor)]
      else []
  | f :: rest =>
      (if Qlt_bool (1 # 100) (ff_start f - cursor)
       then [(blankPath, ff_start f - cursor)]
       else [])
      ++ (path f, Math_max (ff_end f - ff_start f) (33 # 1000))
      :: timelineFrom blankPath audioDuration (ff_end f) rest
  end.

(** Frames in time order from [cursor] on: each starts at or after the
    end of the one before it (the first at or after [cursor]) and does not
    end before it starts. *)
Fixpoint inSequence (cursor : Q) (frameFiles : list FrameFile) : Prop :=
  match frameFiles with
  | [] => True
  | f :: rest =>
      cursor <= ff_start f /\ ff_start f <= ff_end f /\ inSequence (ff_end f) rest
  end.

(** The end of the last frame, [cursor] when there is no frame. *)
Fixpoint endOf (cursor : Q) (frameFiles : list FrameFile) : Q :=
  match frameFiles with
  | [] => cursor
  | f :: rest => endOf (ff_end f) rest
  end.

(** The style [{ video: { fps } }]. *)
Definition styleWithFps (fps : Q) : Style :=
  mkStyle None None (Some fps) None None None None None None None None None None
          None None None None.

(** Four frames, each starting 1/128 s (0.0078125 s) after the end of the
    one before; the times are binary fractions, exact as JavaScript
    numbers too. *)
Definition closeFrames : list FrameFile :=
  [mkFrameFile "f0" 0 1; mkFrameFile "f1" (129 # 128) 2;
   mkFrameFile "f2" (257 # 128) 3; mkFrameFile "f3" (385 # 128) 4].

(** The frames of the two chunks "hello world" (0.0-0.9) and "today"
    (2.0-2.5). *)
Definition helloFrames : list FrameFile :=
  [mkFrameFile "f0" 0 (9 # 10); mkFrameFile "f1" 2 (25 # 10)].

(** The style [{ text: { maxChunkSize } }]. *)
Definition styleWithMaxChunkSize (n : nat) : Style :=
  mkStyle None None None None None None None None None None None None None
          (Some n) None None None.

(** Three words that follow each other without a pause. *)
Definition abcWords : list Word :=
  [mkWord "a" 0 1; mkWord "b" 1 2; mkWord "c" 2 3].

(** The wrapper that [loadWords] builds around a bare list. *)
Definition legacyWrapper (raw : Json) : Json :=
  JObj [("language", JStr "en"); ("language_probability", JNum 1); ("words", raw)]%string.

(** The language [main] uses when [--lang] is not given and the document
    is the object [{ fields }]. *)
Definition languageInForce (fields : list (string * Json)) : Json :=
  match lookupField "language" fields with
  | Some v => if truthy (Some v) then v else JStr "en"
  | None => JStr "en"
  end.

(** [d.toFixed(4)], as the number of ten-thousandths it shows: the nearest
    one, the larger of two equally near ones, the sign set apart. *)
Definition toFixed4 (d : Q) : Z :=
  if Qlt_bool d 0
  then (- Qfloor (- d * 10000 + (1 # 2)))%Z
  else Qfloor (d * 10000 + (1 # 2)).

(** The duration a [duration] line shows. *)
Definition shown (d : Q) : Q := toFixed4 d # 10000.

(** The total of the durations as the concat file shows them. *)
Definition shownTotalOf (ls : list Line) : Q :=
  Qsum (map (fun e => shown (snd e)) (entries ls)).

(** ** Vocabulary of the further properties *)

(** An entry of the blank frame. *)
Definition isFiller (blankPath : string) (e : string * Q) : bool :=
  String.eqb (fst e) blankPath.

(** The entry that the loop of [buildConcatFile] writes for a frame. *)
Definition contentEntry (f : FrameFile) : string * Q :=
  (path f, Math_max (ff_end f - ff_start f) (33 # 1000)).

(** Timings that the loop of [buildConcatFile] keeps as they are: every
    gap before a frame is 0 or more than 0.01 s, every frame lasts at least
    0.033 s, and what is left after the last frame is 0 or more than
    0.01 s. *)
Fixpoint cleanTimings (cursor : Q) (frameFiles : list FrameFile) (audioDuration : Q)
  : Prop :=
  match frameFiles with
  | [] => audioDuration - cursor == 0 \/ 1 # 100 < audioDuration - cursor
  | f :: rest =>
      (ff_start f - cursor == 0 \/ 1 # 100 < ff_start f - cursor) /\
      33 # 1000 <= ff_end f - ff_start f /\
      cleanTimings (ff_end f) rest audioDuration
  end.

(** The frame files of the frames [frames], numbered from [i]. *)
Fixpoint frameFilesFrom (tmpDir : string) (i : nat) (frames : list Chunk)
  : list FrameFile :=
  match frames with
  | [] => []
  | frame :: rest =>
      mkFrameFile (framePath tmpDir i) (start frame) (end_ frame)
      :: frameFilesFrom tmpDir (S i) rest
  end.

(** [inSequence] and [endOf] read on the pairs [(start, end)]. *)
Fixpoint spansInSequence (cursor : Q) (spans : list (Q * Q)) : Prop :=
  match spans with
  | [] => True
  | s :: rest => cursor <= fst s /\ fst s <= snd s /\ spansInSequence (snd s) rest
  end.

Fixpoint spansEnd (cursor : Q) (spans : list (Q * Q)) : Q :=
  match spans with
  | [] => cursor
  | s :: rest => spansEnd (snd s) rest
  end.

Definition spanOfFile (f : FrameFile) : Q * Q := (ff_start f, ff_end f).
Definition spanOfChunk (c : Chunk) : Q * Q := (start c, end_ c).
Definition spanOfWord (w : Word) : Q * Q := (w_start w, w_end w).

(** The first word does not start before time 0. *)
Definition startsFromZero (ws : list Word) : Prop :=
  match ws with
  | [] => True
  | w :: _ => 0 <= w_start w
  end.

(** The audio lasts at least to the end of the last word. *)
Definition coversWords (audioDuration : Q) (ws : list Word) : Prop :=
  match pop ws with
  | Some w => w_end w <= audioDuration
  | None => 0 <= audioDuration
  end.

(** The number that a string of decimal digits writes, [None] when a
    character is not a digit. *)
Definition indexOfDigits (s : string) : option nat :=
  option_map Nat.of_uint (NilEmpty.uint_of_string s).

(** Words with silence between them: each starts after the previous one
    has ended. *)
Definition separated (ws : list Word) : Prop :=
  adjacent (fun p n => w_end p < w_start n) ws.

(** The two colours of a [<text>] element. *)
Definition coloursOf (te : TextElement) : string * string :=
  (te_fill te, te_stroke te).

(** One of the five characters that [escapeXml] replaces. *)
Definition isSpecialChar (c : ascii) : bool :=
  Ascii.eqb c "&" || isMarkupChar c.

(** A text without any of the five characters. *)
Fixpoint plainText (s : string) : bool :=
  match s with
  | EmptyString => true
  | String c r => negb (isSpecialChar c) && plainText r
  end.

(** Reading the entities back: after an [&] that opens one of the five
    entities the character it stands for is given and the rest of the
    entity ([skip] characters) is passed over. *)
Fixpoint unescapeFrom (skip : nat) (s : string) : string :=
  match s with
  | EmptyString => EmptyString
  | String c r =>
      match skip with
      | S k => unescapeFrom k r
      | O =>
          if Ascii.eqb c "&"
          then if prefix "amp;" r then String "&" (unescapeFrom 4 r)
               else if prefix "lt;" r then String "<" (unescapeFrom 3 r)
               else if prefix "gt;" r then String ">" (unescapeFrom 3 r)
               else if prefix "quot;" r then String dquote (unescapeFrom 5 r)
               else if prefix "apos;" r then String "'" (unescapeFrom 5 r)
               else String c (unescapeFrom 0 r)
          else String c (unescapeFrom 0 r)
      end
  end.

Definition unescapeXml (s : string) : string := unescapeFrom 0 s.

(** ** Command line of generate-video.js: [parseArgs] *)

(** The options object [opts]; [None] is [null] or [undefined]. *)
Record Opts : Type := mkOpts {
  opt_words  : option string;
  opt_audio  : option string;
  opt_output : option string;
  opt_style  : option string;
  opt_mode   : option string;
  opt_lang   : option string
}.

(** The cases of the [switch]. *)
Inductive Flag : Type := FWords | FAudio | FOutput | FStyle | FMode | FLang.

Definition flagName (f : Flag) : string :=
  match f with
  | FWords => "--words"
  | FAudio => "--audio"
  | FOutput => "--output"
  | FStyle => "--style"
  | FMode => "--mode"
  | FLang => "--lang"
  end.

(** The case that [switch (args[i])] takes, [None] when it takes none. *)
Definition flagOf (a : string) : option Flag :=
  if String.eqb a "--words" then Some FWords
  else if String.eqb a "--audio" then Some FAudio
  else if String.eqb a "--output" then Some FOutput
  else if String.eqb a "--style" then Some FStyle
  else if String.eqb a "--mode" then Some FMode
  else if String.eqb a "--lang" then Some FLang
  else None.

(** [opts.<field> = v]. *)
Definition setOption (f : Flag) (v : option string) (opts : Opts) : Opts :=
  match f with
  | FWords => mkOpts v (opt_audio opts) (opt_output opts) (opt_style opts)
                     (opt_mode opts) (opt_lang opts)
  | FAudio => mkOpts (opt_words opts) v (opt_output opts) (opt_style opts)
                     (opt_mode opts) (opt_lang opts)
  | FOutput => mkOpts (opt_words opts) (opt_audio opts) v (opt_style opts)
                      (opt_mode opts) (opt_lang opts)
  | FStyle => mkOpts (opt_words opts) (opt_audio opts) (opt_output opts) v
                     (opt_mode opts) (opt_lang opts)
  | FMode => mkOpts (opt_words opts) (opt_audio opts) (opt_output opts)
                    (opt_style opts) v (opt_lang opts)
  | FLang => mkOpts (opt_words opts) (opt_audio opts) (opt_output opts)
                    (opt_style opts) (opt_mode opts) v
  end.

Definition getOption (f : Flag) (opts : Opts) : option string :=
  match f with
  | FWords => opt_words opts
  | FAudio => opt_audio opts
  | FOutput => opt_output opts
  | FStyle => opt_style opts
  | FMode => opt_mode opts
  | FLang => opt_lang opts
  end.

(** The loop [for (let i = 0; i < args.length; i++) switch (args[i]) ...]:
    a known flag takes the next argument as its value ([args[++i]],
    [undefined] past the end), any other argument is passed over. *)
Fixpoint parseLoop (args : list string) (opts : Opts) : Opts :=
  match args with
  | [] => opts
  | a :: rest =>
      match flagOf a with
      | Some f =>
          match rest with
          | [] => setOption f None opts
          | v :: rest' => parseLoop rest' (setOption f (Some v) opts)
          end
      | None => parseLoop rest opts
      end
  end.

(** The initial [opts]; [defaultStyle] is the path of
    references/video-style.json beside the scripts. *)
Definition defaultOpts (defaultStyle : string) : Opts :=
  mkOpts None None (Some "output.mp4"%string) (Some defaultStyle)
         (Some "chunk"%string) None.

(** How [parseArgs] ends: it returns [opts] or exits. *)
Inductive Parsed : Type :=
| ParsedOk (opts : Opts)
| ParsedExit (code : nat) (message : string).

(** [!v] for an option value. *)
Definition missing (v : option string) : bool :=
  match v with
  | None => true
  | Some EmptyString => true
  | Some _ => false
  end.

Definition parseArgs (defaultStyle : string) (args : list string) : Parsed :=
  let opts := parseLoop args (defaultOpts defaultStyle) in
  if missing (opt_words opts) then ParsedExit 1 "ERROR: --words is required"
  else if missing (opt_audio opts) then ParsedExit 1 "ERROR: --audio is required"
  else ParsedOk opts.

(** A command line made of flags, each followed by its value. *)
Definition argsOf (pairs : list (Flag * string)) : list string :=
  flat_map (fun p => [flagName (fst p); snd p]) pairs.

Definition Flag_eqb (f g : Flag) : bool :=
  match f, g with
  | FWords, FWords | FAudio, FAudio | FOutput, FOutput
  | FStyle, FStyle | FMode, FMode | FLang, FLang => true
  | _, _ => false
  end.

(** The value given last for a flag. *)
Fixpoint lastValue (f : Flag) (pairs : list (Flag * string)) : option string :=
  match pairs with
  | [] => None
  | p :: rest =>
      match lastValue f rest with
      | Some v => Some v
      | None => if Flag_eqb f (fst p) then Some (snd p) else None
      end
  end.

(** The value of an option after such a command line. *)
Definition optionAfter (defaultStyle : string) (pairs : list (Flag * string))
           (f : Flag) : option string :=
  match lastValue f pairs with
  | Some v => Some v
  | None => getOption f (defaultOpts defaultStyle)
  end.

(** ** Polling Telegram: the updates handled by [main] of telegram-poll.js *)

Record Voice : Type := mkVoice {
  voice_file_id   : string;
  voice_mime_type : option string;
  voice_duration  : option Q
}.

Record AudioFile : Type := mkAudioFile {
  audio_file_id   : string;
  audio_mime_type : option string;
  audio_duration  : option Q;
  audio_file_name : option string
}.

Record Document : Type := mkDocument {
  document_file_id   : string;
  document_mime_type : option string;
  document_file_name : option string
}.

(** A message: [chat.id], [message_id] and the attachments it may have. *)
Record Message : Type := mkMessage {
  chat_id    : Z;
  message_id : Z;
  voice      : option Voice;
  audio      : option AudioFile;
  document   : option Document
}.

Record Update : Type := mkUpdate {
  update_id : Z;
  message   : option Message
}.

(** [allowedChatId && msg.chat.id !== allowedChatId]; [allowedChatId] is
    [None] when the variable is not set or is not a number, and 0 is
    falsy. *)
Definition wrongChat (allowedChatId : option Z) (msg : Message) : bool :=
  match allowedChatId with
  | Some c => negb (Z.eqb c 0) && negb (Z.eqb (chat_id msg) c)
  | None => false
  end.

(** [msg.document && msg.document.mime_type &&
    msg.document.mime_type.startsWith('audio/')]. *)
Definition isAudioDocument (d : option Document) : bool :=
  match d with
  | Some doc =>
      match document_mime_type doc with
      | Some EmptyString => false
      | Some mime => prefix "audio/" mime
      | None => false
      end
  | None => false
  end.

Definition isSome {A : Type} (o : option A) : bool :=
  match o with
  | Some _ => true
  | None => false
  end.

(** The predicate of [updates.filter(...)]. *)
Definition isAudioUpdate (allowedChatId : option Z) (u : Update) : bool :=
  match message u with
  | None => false
  | Some msg =>
      if wrongChat allowedChatId msg then false
      else isSome (voice msg) || isSome (audio msg) || isAudioDocument (document msg)
  end.

(** How the handling of the updates ends: exit 2 without touching the
    offset, exit 2 after saving the offset, or the download of the audio of
    [latest] after saving the offset. *)
Inductive PollOutcome : Type :=
| NoUpdates
| NoAudio (savedOffset : Z)
| AudioFound (savedOffset : Z) (latest : Update).

(** [Math.max(...ids)] for at least one id. *)
Definition Math_max_ids (first : Z) (others : list Z) : Z :=
  fold_left Z.max others first.

Definition pollUpdates (allowedChatId : option Z) (updates : list Update)
  : PollOutcome :=
  match updates with
  | [] => NoUpdates
  | u :: rest =>
      let audioUpdates := filter (isAudioUpdate allowedChatId) updates in
      let maxUpdateId := Math_max_ids (update_id u) (map update_id rest) in
      match pop audioUpdates with
      | None => NoAudio (maxUpdateId + 1)
      | Some latest => AudioFound (maxUpdateId + 1) latest
      end
  end.

(** The offset that [pollUpdates] saved, if it saved one. *)
Definition savedOffsetOf (r : PollOutcome) : option Z :=
  match r with
  | NoUpdates => None
  | NoAudio o => Some o
  | AudioFound o _ => Some o
  end.

(** A word of no duration at time 0, followed 0.1 s later by a word in
    the same chunk. *)
Definition zeroWindowWords : list Word :=
  [mkWord "a" 0 0; mkWord "b" (1 # 10) (5 # 10)].

(** * Properties *)

(** ** Comparisons and defaults *)

Lemma Qlt_bool_iff (x y : Q) : Qlt_bool x y = true <-> x < y.
Proof.
  unfold Qlt_bool. rewrite negb_true_iff.
  split; intros H.
  - apply Qnot_le_lt. intros Hle. apply Qle_bool_iff in Hle. congruence.
  - destruct (Qle_bool y x) eqn:E; [|reflexivity].
    apply Qle_bool_iff in E. exfalso. apply (Qlt_not_le _ _ H E).
Qed.

Lemma Qlt_bool_false_iff (x y : Q) : Qlt_bool x y = false <-> y <= x.
Proof.
  unfold Qlt_bool. rewrite negb_false_iff. apply Qle_bool_iff.
Qed.

Lemma Math_max_spec (a b : Q) :
  (a <= b /\ Math_max a b = b) \/ (b < a /\ Math_max a b = a).
Proof.
  unfold Math_max. destruct (Qle_bool a b) eqn:E.
  - left. split; [now apply Qle_bool_iff | reflexivity].
  - right. split; [|reflexivity].
    apply Qnot_le_lt. intros H. apply Qle_bool_iff in H. congruence.
Qed.

Lemma or_nat_pos (v : option nat) (d : nat) : (1 <= d -> 1 <= or_nat v d)%nat.
Proof.
  intros Hd. destruct v as [[|n]|]; simpl; lia.
Qed.

Lemma maxChunkSize_pos (style : Style) : (1 <= maxChunkSize_of style)%nat.
Proof. apply or_nat_pos. lia. Qed.

(** ** Lists: the last element and neighbouring elements *)

Lemma pop_snoc {A : Type} (l : list A) (x : A) : pop (l ++ [x]) = Some x.
Proof.
  destruct l as [|a l]; [reflexivity|].
  simpl app. unfold pop. f_equal.
  change (a :: l ++ [x]) with ((a :: l) ++ [x]). apply last_last.
Qed.

Lemma pop_nonempty {A : Type} (l : list A) : l <> [] -> exists x, pop l = Some x.
Proof.
  destruct l as [|a l]; [congruence|]. intros _. eexists. reflexivity.
Qed.

Lemma pop_app_r {A : Type} (l r : list A) : r <> [] -> pop (l ++ r) = pop r.
Proof.
  intros Hr. destruct (exists_last Hr) as [r' [x ->]].
  rewrite app_assoc, !pop_snoc. reflexivity.
Qed.

Lemma adjacent_snoc {A : Type} (R : A -> A -> Prop) (l : list A) (x : A) :
  adjacent R (l ++ [x]) <->
  adjacent R l /\ (forall y, pop l = Some y -> R y x).
Proof.
  induction l as [|a l IH].
  - simpl. split; [intros _; split; [exact I | discriminate] | intros _; exact I].
  - destruct l as [|b l].
    + simpl. split.
      * intros [H _]. split; [exact I|]. intros y Hy. injection Hy as <-. exact H.
      * intros [_ H]. split; [apply H; reflexivity | exact I].
    + change ((a :: b :: l) ++ [x]) with (a :: (b :: l) ++ [x]).
      change (adjacent R (a :: (b :: l) ++ [x]))
        with (R a b /\ adjacent R ((b :: l) ++ [x])).
      change (adjacent R (a :: b :: l)) with (R a b /\ adjacent R (b :: l)).
      rewrite IH.
      assert (Hp : pop (a :: b :: l) = pop (b :: l)).
      { change (a :: b :: l) with ([a] ++ (b :: l)). apply pop_app_r. discriminate. }
      rewrite Hp. tauto.
Qed.

Lemma adjacent_split {A : Type} (R : A -> A -> Prop) (pre post : list A) (a b : A) :
  adjacent R (pre ++ a :: b :: post) -> R a b.
Proof.
  induction pre as [|x pre IH].
  - simpl. tauto.
  - destruct pre as [|y pre].
    + simpl. intros [_ H]. apply H.
    + intros H. apply IH. apply H.
Qed.

Lemma concat_snoc {A : Type} (ls : list (list A)) (l : list A) :
  concat (ls ++ [l]) = concat ls ++ l.
Proof.
  rewrite concat_app. simpl. rewrite app_nil_r. reflexivity.
Qed.

(** ** The grouping loop *)

Section Grouping.
Variable pauseThreshold : Q.
Variable maxChunkSize : nat.
Hypothesis maxChunkSize_ge_1 : (1 <= maxChunkSize)%nat.

Lemma GroupInv_init : GroupInv pauseThreshold maxChunkSize [] ([], []).
Proof.
  split; simpl; auto.
Qed.

Lemma mkChunk_wf (c0 : Word) (l : list Word) :
  chunk_wf (mkChunk (c0 :: l) (w_start c0) (w_end (last (c0 :: l) c0))).
Proof.
  repeat split. discriminate.
Qed.

Lemma GroupInv_step (seen : list Word) (st : GroupState) (w : Word) :
  GroupInv pauseThreshold maxChunkSize seen st ->
  GroupInv pauseThreshold maxChunkSize (seen ++ [w])
           (chunkStep pauseThreshold maxChunkSize st w).
Proof.
  destruct st as [chunks current]. intros [Hc Hr Hg Hb Ho]. simpl in *.
  unfold chunkStep. destruct current as [|c0 l].
  - (* the first word opens the first chunk *)
    rewrite (Ho eq_refl) in *. simpl in *. subst seen.
    split; simpl; auto.
    constructor; [|constructor]. repeat split; simpl; auto. discriminate.
  - set (current := c0 :: l) in *.
    destruct (Qlt_bool pauseThreshold (w_start w - w_end (last current c0))
              || (maxChunkSize <=? length current)%nat) eqn:Etrig.
    + (* close the chunk; [w] opens the next one *)
      assert (Hgs : groupsOf (chunks ++ [mkChunk current (w_start c0)
                                            (w_end (last current c0))], [w])
                    = groupsOf (chunks, current) ++ [[w]]).
      { unfold groupsOf. simpl. rewrite map_app. simpl.
        rewrite <- app_assoc. reflexivity. }
      split.
      * rewrite Hgs, concat_snoc. unfold groupsOf. simpl. f_equal. exact Hc.
      * simpl. apply Forall_app. split; [exact Hr|].
        constructor; [apply mkChunk_wf | constructor].
      * rewrite Hgs. apply Forall_app. split; [exact Hg|].
        constructor; [|constructor]. repeat split; simpl; auto. discriminate.
      * rewrite Hgs. apply adjacent_snoc. split; [exact Hb|].
        intros g Hpop. unfold groupsOf in Hpop. simpl in Hpop.
        rewrite pop_snoc in Hpop. injection Hpop as <-.
        intros p n Hp Hn. simpl in Hn. injection Hn as <-.
        unfold current in Hp. simpl in Hp. injection Hp as <-.
        apply orb_true_iff in Etrig. destruct Etrig as [E|E].
        -- left. apply Qlt_bool_iff. exact E.
        -- right. apply Nat.leb_le. exact E.
      * simpl. discriminate.
    + (* [w] joins the open chunk *)
      apply orb_false_iff in Etrig. destruct Etrig as [Egap Efull].
      apply Qlt_bool_false_iff in Egap. apply Nat.leb_gt in Efull.
      assert (Hne : current ++ [w] <> []) by (unfold current; discriminate).
      assert (Hgs : groupsOf (chunks, current ++ [w])
                    = map words chunks ++ [current ++ [w]]).
      { unfold groupsOf. simpl. reflexivity. }
      assert (Hgs0 : groupsOf (chunks, current) = map words chunks ++ [current]).
      { reflexivity. }
      rewrite Hgs0 in *.
      split.
      * rewrite Hgs, concat_snoc. rewrite concat_snoc in Hc.
        rewrite app_assoc. f_equal. exact Hc.
      * exact Hr.
      * rewrite Hgs. apply Forall_app in Hg. destruct Hg as [Hg1 Hg2].
        apply Forall_app. split; [exact Hg1|].
        constructor; [|constructor].
        inversion Hg2 as [|? ? [_ [Hlen Hadj]] _]; subst.
        split; [exact Hne|]. split.
        -- rewrite length_app. unfold current in *. simpl in *. lia.
        -- apply adjacent_snoc. split; [exact Hadj|].
           intros p Hp. unfold current in Hp. simpl in Hp. injection Hp as <-.
           exact Egap.
      * rewrite Hgs. apply adjacent_snoc in Hb. destruct Hb as [Hb1 Hb2].
        apply adjacent_snoc. split; [exact Hb1|].
        intros g Hpop p n Hp Hn. apply (Hb2 g Hpop p n Hp).
        unfold current in *. simpl in *. exact Hn.
      * simpl. intros H. exfalso. apply Hne. exact H.
Qed.

Lemma GroupInv_fold (ws seen : list Word) (st : GroupState) :
  GroupInv pauseThreshold maxChunkSize seen st ->
  GroupInv pauseThreshold maxChunkSize (seen ++ ws)
           (fold_left (chunkStep pauseThreshold maxChunkSize) ws st).
Proof.
  revert seen st. induction ws as [|w ws IH]; intros seen st Hinv.
  - rewrite app_nil_r. exact Hinv.
  - simpl. replace (seen ++ w :: ws) with ((seen ++ [w]) ++ ws)
      by (rewrite <- app_assoc; reflexivity).
    apply IH. apply GroupInv_step. exact Hinv.
Qed.

Lemma flushChunks_words (st : GroupState) :
  map words (flushChunks st) = groupsOf st.
Proof.
  destruct st as [chunks [|c0 l]]; unfold flushChunks, groupsOf; simpl.
  - rewrite app_nil_r. reflexivity.
  - rewrite map_app. reflexivity.
Qed.

Lemma flushChunks_wf (st : GroupState) :
  Forall chunk_wf (fst st) -> Forall chunk_wf (flushChunks st).
Proof.
  destruct st as [chunks [|c0 l]]; unfold flushChunks; simpl; intros H.
  - exact H.
  - apply Forall_app. split; [exact H|].
    constructor; [apply mkChunk_wf | constructor].
Qed.

(** What the grouping returns. *)
Lemma groupWords_spec (ws : list Word) :
  let units := groupWords pauseThreshold maxChunkSize ws in
  concat (map words units) = ws /\
  Forall chunk_wf units /\
  Forall (group_ok pauseThreshold maxChunkSize) (map words units) /\
  adjacent (boundary pauseThreshold maxChunkSize) (map words units).
Proof.
  unfold groupWords.
  pose proof (GroupInv_fold ws [] ([], []) GroupInv_init) as [Hc Hr Hg Hb _].
  simpl in Hc. cbv zeta. rewrite flushChunks_words.
  repeat split; try assumption.
  apply flushChunks_wf. exact Hr.
Qed.
End Grouping.

(** ** The chunk builder *)

Lemma wordMode_concat (ws : list Word) :
  concat (map words (map (fun w => mkChunk [w] (w_start w) (w_end w)) ws)) = ws.
Proof.
  induction ws as [|w ws IH]; simpl; [reflexivity | now rewrite IH].
Qed.

Lemma wordMode_wf (ws : list Word) :
  Forall chunk_wf (map (fun w => mkChunk [w] (w_start w) (w_end w)) ws).
Proof.
  apply Forall_map. apply Forall_forall. intros w _.
  repeat split. discriminate.
Qed.

Lemma buildChunks_concat (ws : list Word) (style : Style) (mode : string) :
  concat (map words (buildChunks ws style mode)) = ws.
Proof.
  unfold buildChunks. destruct (String.eqb mode "word").
  - apply wordMode_concat.
  - apply (groupWords_spec (pauseThreshold_of style) (maxChunkSize_of style)
                           (maxChunkSize_pos style) ws).
Qed.

Lemma buildChunks_wf (ws : list Word) (style : Style) (mode : string) :
  Forall chunk_wf (buildChunks ws style mode).
Proof.
  unfold buildChunks. destruct (String.eqb mode "word").
  - apply wordMode_wf.
  - apply (groupWords_spec (pauseThreshold_of style) (maxChunkSize_of style)
                           (maxChunkSize_pos style) ws).
Qed.

(** C9. In every mode ("word", "chunk", "karaoke" and any other mode
    string, which groups like "chunk") the chunks returned by [buildChunks]
    partition the input: their word lists, concatenated in order, are the
    input sequence; every chunk has at least one word, its [start] is its
    first word's start and its [end] its last word's end. *)
Theorem buildChunks_partition (ws : list Word) (style : Style) (mode : string) :
  concat (map words (buildChunks ws style mode)) = ws /\
  Forall (fun u =>
            words u <> [] /\
            option_map w_start (hd_error (words u)) = Some (start u) /\
            option_map w_end (pop (words u)) = Some (end_ u))
         (buildChunks ws style mode).
Proof.
  split.
  - apply buildChunks_concat.
  - exact (buildChunks_wf ws style mode).
Qed.

Lemma concat_head {A : Type} (ls : list (list A)) (x : A) (r : list A) :
  Forall (fun l => l <> []) ls -> concat ls = x :: r ->
  exists l ls' tl, ls = l :: ls' /\ l = x :: tl.
Proof.
  intros Hne Hc. destruct ls as [|l ls']; [discriminate|].
  inversion Hne as [|? ? Hl _]; subst.
  destruct l as [|y tl]; [congruence|].
  simpl in Hc. injection Hc as -> _.
  exists (x :: tl), ls', tl. split; reflexivity.
Qed.

(** C2. In chunk mode, with [pauseThreshold] and [maxChunkSize] the values
    in force ([style.animation.pauseThreshold || 0.3] and
    [style.text.maxChunkSize || 4]):
    - no unit holds more than [maxChunkSize] words;
    - where two consecutive words were split although their gap is at most
      [pauseThreshold], the unit before the split is full;
    - inside a unit no word triggered a close: each word follows its
      predecessor within [pauseThreshold] and joined a unit that was not
      full, so a triggering word is never appended;
    - the first word opens the first unit;
    - the units hold all the words in order, the open unit included. *)
Theorem buildChunks_chunk_mode (ws : list Word) (style : Style) :
  let pauseThreshold := pauseThreshold_of style in
  let maxChunkSize := maxChunkSize_of style in
  let units := buildChunks ws style "chunk" in
  Forall (fun u => (length (words u) <= maxChunkSize)%nat) units /\
  (forall pre u1 u2 post p n rest,
      units = pre ++ u1 :: u2 :: post ->
      pop (words u1) = Some p -> words u2 = n :: rest ->
      w_start n - w_end p <= pauseThreshold ->
      length (words u1) = maxChunkSize) /\
  (forall u xs p n ys,
      In u units -> words u = xs ++ p :: n :: ys ->
      w_start n - w_end p <= pauseThreshold /\
      (length (xs ++ [p]) < maxChunkSize)%nat) /\
  (forall w rest, ws = w :: rest ->
      exists u us tl, units = u :: us /\ words u = w :: tl) /\
  concat (map words units) = ws.
Proof.
  cbv zeta. unfold buildChunks. simpl String.eqb. cbv iota.
  set (pt := pauseThreshold_of style). set (mx := maxChunkSize_of style).
  pose proof (groupWords_spec pt mx (maxChunkSize_pos style) ws) as [Hc [Hwf [Hg Hb]]].
  set (units := groupWords pt mx ws) in *.
  assert (Hsize : Forall (fun u => (length (words u) <= mx)%nat) units).
  { pose proof (proj1 (Forall_map _ _ _) Hg) as Hg'.
    eapply Forall_impl; [|exact Hg']. intros u [_ [H _]]. exact H. }
  split; [exact Hsize|]. split; [|split; [|split]].
  - intros pre u1 u2 post p n rest Hu Hp Hn Hgap.
    rewrite Hu, map_app in Hb. simpl in Hb.
    apply adjacent_split in Hb.
    destruct (Hb p n Hp) as [Hlt | Hfull].
    + rewrite Hn. reflexivity.
    + exfalso. apply (Qlt_not_le _ _ Hlt Hgap).
    + rewrite Forall_forall in Hsize.
      specialize (Hsize u1). rewrite Hu in Hsize.
      assert (Hin : In u1 (pre ++ u1 :: u2 :: post))
        by (apply in_or_app; right; left; reflexivity).
      specialize (Hsize Hin). lia.
  - intros u xs p n ys Hin Hw.
    pose proof (proj1 (Forall_map _ _ _) Hg) as Hg'. rewrite Forall_forall in Hg'.
    destruct (Hg' u Hin) as [_ [Hlen Hadj]].
    rewrite Hw in Hlen, Hadj. split.
    + apply (adjacent_split _ _ _ _ _ Hadj).
    + rewrite !length_app in *. simpl in *. lia.
  - intros w rest Hws.
    assert (Hne : Forall (fun l : list Word => l <> []) (map words units)).
    { eapply Forall_impl; [|exact Hg]. intros g [H _]. exact H. }
    rewrite Hws in Hc.
    destruct (concat_head _ _ _ Hne Hc) as [l [ls' [tl [Hm Hl]]]].
    destruct units as [|u us]; [discriminate|].
    simpl in Hm. injection Hm as Hu Hus.
    exists u, us, tl. split; [reflexivity | congruence].
  - exact Hc.
Qed.

(** ** The karaoke expansion *)

Lemma fold_left_push {A B : Type} (f : A -> B) (l : list A) (acc : list B) :
  fold_left (fun fr x => fr ++ [f x]) l acc = acc ++ map f l.
Proof.
  revert acc. induction l as [|x l IH]; intros acc; simpl.
  - now rewrite app_nil_r.
  - rewrite IH, <- app_assoc. reflexivity.
Qed.

Lemma expandChunk_eq (frames : list Chunk) (chunk : Chunk) :
  expandChunk frames chunk = frames ++ map (karaokeFrame chunk) (words chunk).
Proof. apply fold_left_push. Qed.

Lemma expandChunks_eq (chunks frames : list Chunk) :
  fold_left expandChunk chunks frames
  = frames ++ flat_map (fun u => map (karaokeFrame u) (words u)) chunks.
Proof.
  revert frames. induction chunks as [|u chunks IH]; intros frames; simpl.
  - now rewrite app_nil_r.
  - rewrite IH, expandChunk_eq, <- app_assoc. reflexivity.
Qed.

Lemma buildFrames_eq (mode : string) (chunks : list Chunk) :
  buildFrames mode chunks
  = if String.eqb mode "karaoke"
    then flat_map (fun u => map (karaokeFrame u) (words u)) chunks
    else chunks.
Proof.
  unfold buildFrames. destruct (String.eqb mode "karaoke"); simpl; [|reflexivity].
  destruct chunks as [|u chunks]; [reflexivity|].
  change (0 <? length (u :: chunks))%nat with true. cbv iota.
  rewrite expandChunks_eq. reflexivity.
Qed.

Lemma chunksOfRun_eq (ws : list Word) (style : Style) (mode : string) :
  chunksOfRun ws style mode = buildChunks ws style mode.
Proof.
  unfold chunksOfRun. destruct ws as [|w ws]; [|reflexivity].
  simpl. unfold buildChunks. destruct (String.eqb mode "word"); reflexivity.
Qed.

Lemma in_karaoke_frames (chunks : list Chunk) (f : Chunk) :
  In f (buildFrames "karaoke" chunks) <->
  exists u wo, In u chunks /\ In wo (words u) /\ f = karaokeFrame u wo.
Proof.
  rewrite buildFrames_eq. simpl String.eqb. cbv iota.
  rewrite in_flat_map. split.
  - intros [u [Hu Hf]]. apply in_map_iff in Hf. destruct Hf as [wo [Hf Hwo]].
    exists u, wo. auto.
  - intros [u [wo [Hu [Hwo Hf]]]]. exists u. split; [exact Hu|].
    apply in_map_iff. exists wo. auto.
Qed.

Lemma length_flat_map_words {A : Type} (f : Chunk -> Word -> A) (chunks : list Chunk) :
  length (flat_map (fun u => map (f u) (words u)) chunks)
  = length (concat (map words chunks)).
Proof.
  induction chunks as [|u chunks IH]; simpl; [reflexivity|].
  rewrite !length_app, length_map, IH. reflexivity.
Qed.

(** C5. The frame list built in [main] from any list of chunks: in
    karaoke mode one frame per word of each chunk, in chunk order and,
    within a chunk, in word order, each frame keeping the chunk's whole word
    list and carrying that word's start and end as [activeStart] and
    [activeEnd], so that there are as many frames as words; in every other
    mode the chunks themselves, one frame per chunk. *)
Theorem buildFrames_expansion (mode : string) (chunks : list Chunk) :
  (if String.eqb mode "karaoke"
   then map (fun f => (words f, activeStart f, activeEnd f)) (buildFrames mode chunks)
        = flat_map (fun u => map (fun wo => (words u, Some (w_start wo), Some (w_end wo)))
                                 (words u)) chunks
        /\ length (buildFrames mode chunks) = length (concat (map words chunks))
   else buildFrames mode chunks = chunks
        /\ length (buildFrames mode chunks) = length chunks).
Proof.
  rewrite buildFrames_eq. destruct (String.eqb mode "karaoke").
  - split.
    + induction chunks as [|u chunks IH]; simpl; [reflexivity|].
      rewrite map_app, IH, map_map. reflexivity.
    + apply length_flat_map_words.
  - split; reflexivity.
Qed.

(** For a whole run in karaoke mode there are as many frames as input
    words. *)
Lemma karaoke_run_frame_count (ws : list Word) (style : Style) :
  length (framesOfRun ws style "karaoke") = length ws.
Proof.
  unfold framesOfRun. rewrite chunksOfRun_eq, buildFrames_eq.
  simpl String.eqb. cbv iota. rewrite length_flat_map_words.
  rewrite buildChunks_concat. reflexivity.
Qed.

(** ** Frames of a karaoke run *)

Lemma adjacent_app {A : Type} (R : A -> A -> Prop) (l1 l2 : list A) :
  adjacent R (l1 ++ l2) -> adjacent R l1 /\ adjacent R l2.
Proof.
  induction l1 as [|x l1 IH]; intros H.
  - split; [exact I | exact H].
  - destruct l1 as [|y l1].
    + split; [exact I|]. destruct l2; [exact I | apply H].
    + destruct H as [Hxy H]. destruct (IH H) as [H1 H2].
      split; [split; assumption | exact H2].
Qed.

Lemma in_concat_split {A : Type} (ls : list (list A)) (l : list A) :
  In l ls -> exists pre post, concat ls = pre ++ l ++ post.
Proof.
  induction ls as [|x ls IH]; intros Hin; [contradiction|].
  destruct Hin as [-> | Hin].
  - exists [], (concat ls). reflexivity.
  - destruct (IH Hin) as [pre [post Heq]].
    exists (x ++ pre), post. simpl. rewrite Heq, app_assoc. reflexivity.
Qed.

Lemma ordered_part (pre g post : list Word) :
  ordered (pre ++ g ++ post) -> ordered g.
Proof.
  intros [Hf Ha]. split.
  - apply Forall_app in Hf. destruct Hf as [_ Hf].
    apply Forall_app in Hf. apply Hf.
  - apply adjacent_app in Ha. destruct Ha as [_ Ha].
    apply adjacent_app in Ha. apply Ha.
Qed.

(** In an ordered group every word lies between the first word's start
    and the last word's end. *)
Lemma ordered_bounds (g : list Word) :
  ordered g ->
  forall p z wo, hd_error g = Some p -> pop g = Some z -> In wo g ->
    w_start p <= w_start wo /\ w_start wo <= w_end wo /\ w_end wo <= w_end z.
Proof.
  induction g as [|c0 l IH]; intros Hord p z wo Hp Hz Hin; [contradiction|].
  simpl in Hp. injection Hp as <-.
  destruct Hord as [Hf Ha].
  inversion Hf as [|? ? Hc0 Hf']; subst.
  destruct l as [|c1 l'].
  - simpl in Hz. injection Hz as <-.
    destruct Hin as [<- | []]. repeat split; try apply Qle_refl. exact Hc0.
  - assert (Hz' : pop (c1 :: l') = Some z).
    { rewrite <- Hz. change (c0 :: c1 :: l') with ([c0] ++ (c1 :: l')).
      symmetry. apply pop_app_r. discriminate. }
    destruct Ha as [H01 Ha'].
    assert (Hord' : ordered (c1 :: l')) by (split; assumption).
    pose proof (IH Hord' c1 z c1 eq_refl Hz' (or_introl eq_refl)) as [_ [H1 H1z]].
    destruct Hin as [<- | Hin].
    + repeat split; [apply Qle_refl | exact Hc0 | lra].
    + pose proof (IH Hord' c1 z wo eq_refl Hz' Hin) as [Hs [Hse Hez]].
      repeat split; [lra | exact Hse | exact Hez].
Qed.

(** C4, as the code has it. For input words in order (no word ends before
    it starts, none starts before the previous one has ended), every frame
    of a karaoke run comes from one unit and one word of it: it keeps the
    unit's word list, its [start] and [end] are that word's start and end
    (not the unit's), [activeStart] and [activeEnd] repeat them, and
    [activeStart <= activeEnd] with both inside the unit's
    [[start, end]]. *)
Theorem karaoke_frame_window (ws : list Word) (style : Style) (f : Chunk) :
  ordered ws ->
  In f (framesOfRun ws style "karaoke") ->
  exists u wo,
    In u (buildChunks ws style "karaoke") /\ In wo (words u) /\
    words f = words u /\
    start f = w_start wo /\ end_ f = w_end wo /\
    activeStart f = Some (start f) /\ activeEnd f = Some (end_ f) /\
    start u <= start f /\ start f <= end_ f /\ end_ f <= end_ u.
Proof.
  intros Hord Hin. unfold framesOfRun in Hin. rewrite chunksOfRun_eq in Hin.
  apply in_karaoke_frames in Hin. destruct Hin as [u [wo [Hu [Hwo ->]]]].
  exists u, wo. simpl. repeat split; try assumption.
  all: pose proof (buildChunks_wf ws style "karaoke") as Hwf;
    rewrite Forall_forall in Hwf; destruct (Hwf u Hu) as [Hne [Hs He]];
    destruct (in_concat_split (map words (buildChunks ws style "karaoke")) (words u)
                (in_map words _ _ Hu)) as [pre [post Heq]];
    rewrite buildChunks_concat in Heq; rewrite Heq in Hord;
    apply ordered_part in Hord;
    destruct (hd_error (words u)) as [p|] eqn:Ep; [|discriminate];
    destruct (pop (words u)) as [z|] eqn:Ez; [|discriminate];
    simpl in Hs, He; injection Hs as Hs; injection He as He;
    destruct (ordered_bounds _ Hord p z wo Ep Ez Hwo) as [H1 [H2 H3]];
    rewrite <- ?Hs, <- ?He; assumption.
Qed.

(** A run on which the frame's start is not the unit's first word's
    start: the frame of "is" in the unit "this is" starts at 0.5, the unit
    at 0. *)
Lemma karaoke_frame_unit_span_counterexample :
  ~ (forall ws style f p z,
        In f (framesOfRun ws style "karaoke") ->
        hd_error (words f) = Some p -> pop (words f) = Some z ->
        start f == w_start p /\ end_ f == w_end z).
Proof.
  intros H.
  specialize (H thisIs emptyStyle
                (karaokeFrame (mkChunk thisIs 0 (9 # 10)) (mkWord "is" (5 # 10) (9 # 10)))
                (mkWord "this" 0 (4 # 10)) (mkWord "is" (5 # 10) (9 # 10))).
  destruct H as [H _].
  - vm_compute. right. left. reflexivity.
  - reflexivity.
  - reflexivity.
  - vm_compute in H. discriminate.
Qed.

Lemma karaoke_frame_window_witness :
  exists u wo,
    In u (buildChunks thisIs emptyStyle "karaoke") /\ In wo (words u) /\
    words (karaokeFrame (mkChunk thisIs 0 (9 # 10)) (mkWord "is" (5 # 10) (9 # 10)))
    = words u /\
    5 # 10 = w_start wo /\ 9 # 10 = w_end wo /\
    Some (5 # 10) = Some (5 # 10) /\ Some (9 # 10) = Some (9 # 10) /\
    start u <= 5 # 10 /\ 5 # 10 <= 9 # 10 /\ 9 # 10 <= end_ u.
Proof.
  apply (karaoke_frame_window thisIs emptyStyle
           (karaokeFrame (mkChunk thisIs 0 (9 # 10)) (mkWord "is" (5 # 10) (9 # 10)))).
  - split.
    + repeat constructor; vm_compute; discriminate.
    + simpl. repeat split; vm_compute; discriminate.
  - vm_compute. right. left. reflexivity.
Defined.

(** ** The karaoke highlight test *)

Lemma or_num_nonzero (q d : Q) : ~ q == 0 -> or_num (Some q) d = q.
Proof.
  intros H. unfold or_num. destruct (Qeq_bool q 0) eqn:E; [|reflexivity].
  apply Qeq_bool_iff in E. contradiction.
Qed.

Lemma or_num_zero (q d : Q) : q == 0 -> or_num (Some q) d = d.
Proof.
  intros H. unfold or_num. apply Qeq_bool_iff in H. rewrite H. reflexivity.
Qed.

(** Two closed intervals share a point exactly when each starts no later
    than the other ends. *)
Lemma intersects_iff (s e a b : Q) :
  s <= e -> a <= b -> (intersects s e a b <-> s <= b /\ a <= e).
Proof.
  intros Hse Hab. split.
  - intros [t [H1 [H2 [H3 H4]]]]. split; lra.
  - intros [H1 H2]. destruct (Qlt_le_dec s a) as [Hlt | Hle].
    + exists a. repeat split; lra.
    + exists s. repeat split; lra.
Qed.

(** The test of [buildSvg] on a window [[a, b]] whose end is not 0: the
    fall-back of [activeStart || wo.start] is only taken for [a = 0], where
    it changes nothing for a word that ends at or after 0. *)
Lemma isActive_window (c : Chunk) (wo : Word) (a b : Q) :
  activeStart c = Some a -> activeEnd c = Some b ->
  0 <= a -> a < b -> 0 <= w_start wo -> w_start wo <= w_end wo ->
  (isActive c wo = true <-> intersects (w_start wo) (w_end wo) a b).
Proof.
  intros Ha Hb H0a Hab H0s Hse.
  rewrite intersects_iff by lra.
  unfold isActive. rewrite Ha, Hb, andb_true_iff, !Qle_bool_iff.
  rewrite (or_num_nonzero b) by (intros E; lra).
  destruct (Qeq_dec a 0) as [E | E].
  - rewrite (or_num_zero a) by exact E. split; intros [H1 H2]; split; lra.
  - rewrite (or_num_nonzero a) by exact E. tauto.
Qed.

Lemma in_buildChunks_words (ws : list Word) (style : Style) (mode : string)
      (u : Chunk) (wo : Word) :
  In u (buildChunks ws style mode) -> In wo (words u) -> In wo ws.
Proof.
  intros Hu Hwo. rewrite <- (buildChunks_concat ws style mode).
  apply in_concat. exists (words u). split; [|exact Hwo].
  apply in_map. exact Hu.
Qed.

(** The highlight test on well-formed words. For the frames of a karaoke
    run over words that start at or after 0 and last a positive time, and
    every word of the frame's unit: the word is drawn active exactly when its
    closed interval [[start, end]] shares a point with the frame's closed
    window [[activeStart, activeEnd]]. *)
Theorem isActive_iff_intersects (ws : list Word) (style : Style)
        (f : Chunk) (wo : Word) :
  positive_words ws ->
  In f (framesOfRun ws style "karaoke") ->
  In wo (words f) ->
  exists a b,
    activeStart f = Some a /\ activeEnd f = Some b /\
    (isActive f wo = true <-> intersects (w_start wo) (w_end wo) a b).
Proof.
  intros Hpos Hf Hwo. unfold framesOfRun in Hf. rewrite chunksOfRun_eq in Hf.
  apply in_karaoke_frames in Hf. destruct Hf as [u [wa [Hu [Hwa ->]]]].
  simpl in Hwo.
  exists (w_start wa), (w_end wa). split; [reflexivity|]. split; [reflexivity|].
  unfold positive_words in Hpos. rewrite Forall_forall in Hpos.
  destruct (Hpos wa (in_buildChunks_words _ _ _ _ _ Hu Hwa)) as [Ha0 Hab].
  destruct (Hpos wo (in_buildChunks_words _ _ _ _ _ Hu Hwo)) as [Hs0 Hse].
  apply isActive_window; try reflexivity; try assumption.
  apply Qlt_le_weak. exact Hse.
Qed.

(** The highlight example: in the frame of "is" (window 0.5-0.9) over the
    unit "this is", "this" is inactive and "is" is active. *)
Lemma isActive_this_is :
  let frame := karaokeFrame (mkChunk thisIs 0 (9 # 10)) (mkWord "is" (5 # 10) (9 # 10)) in
  activeStart frame = Some (5 # 10) /\ activeEnd frame = Some (9 # 10) /\
  map (isActive frame) (words frame) = [false; true].
Proof. repeat split. Qed.

Lemma isActive_iff_intersects_witness :
  exists a b,
    Some (5 # 10) = Some a /\ Some (9 # 10) = Some b /\
    (isActive (karaokeFrame (mkChunk thisIs 0 (9 # 10)) (mkWord "is" (5 # 10) (9 # 10)))
              (mkWord "this" 0 (4 # 10)) = true
     <-> intersects 0 (4 # 10) a b).
Proof.
  apply (isActive_iff_intersects thisIs emptyStyle
           (karaokeFrame (mkChunk thisIs 0 (9 # 10)) (mkWord "is" (5 # 10) (9 # 10)))
           (mkWord "this" 0 (4 # 10))).
  - repeat constructor; vm_compute; congruence.
  - vm_compute. right. left. reflexivity.
  - simpl. left. reflexivity.
Defined.

(** C3 at a word that ends at time 0. In the karaoke run over "a" (0-0)
    and "b" (0.1-0.5) both words are in one chunk and the frame of "a" has
    the window 0-0; [activeEnd || wo.end] takes that 0 for a missing value
    and compares "b" with its own end, so "b" is drawn active in the frame of
    "a" although [[0.1, 0.5]] shares no point with [[0, 0]]. *)
Theorem isActive_zero_window_in_run :
  exists f,
    In f (framesOfRun zeroWindowWords emptyStyle "karaoke") /\
    words f = zeroWindowWords /\
    activeStart f = Some 0 /\ activeEnd f = Some 0 /\
    isActive f (mkWord "b" (1 # 10) (5 # 10)) = true /\
    ~ intersects (1 # 10) (5 # 10) 0 0.
Proof.
  exists (karaokeFrame (mkChunk zeroWindowWords 0 (5 # 10)) (mkWord "a" 0 0)).
  split; [vm_compute; left; reflexivity|].
  repeat split.
  intros [t [H1 [_ [_ H4]]]]. lra.
Qed.

(** ** Escaping *)

Lemma string_app_assoc (a b c : string) : (a ++ (b ++ c) = (a ++ b) ++ c)%string.
Proof.
  induction a as [|x a IH]; simpl; [reflexivity | now rewrite IH].
Qed.

Lemma replaceAll_app (c : ascii) (rep s1 s2 : string) :
  replaceAll c rep (s1 ++ s2) = (replaceAll c rep s1 ++ replaceAll c rep s2)%string.
Proof.
  induction s1 as [|a s1 IH]; simpl; [reflexivity|].
  destruct (Ascii.eqb a c); rewrite IH.
  - apply string_app_assoc.
  - reflexivity.
Qed.

Lemma escapeXml_app (s1 s2 : string) :
  escapeXml (s1 ++ s2) = (escapeXml s1 ++ escapeXml s2)%string.
Proof.
  unfold escapeXml. rewrite !replaceAll_app. reflexivity.
Qed.

Lemma escapeXml_char (a : ascii) : escapeXml (String a EmptyString) = entity a.
Proof.
  destruct a as [[] [] [] [] [] [] [] []]; reflexivity.
Qed.

Lemma escapeXml_escapeEach (s : string) : escapeXml s = escapeEach s.
Proof.
  induction s as [|a s IH]; [reflexivity|].
  change (String a s) with (String a EmptyString ++ s)%string.
  rewrite escapeXml_app, escapeXml_char, IH. reflexivity.
Qed.

Lemma wellEscaped_entity (a : ascii) (rest : string) :
  wellEscaped (entity a ++ rest) = wellEscaped rest.
Proof.
  destruct a as [[] [] [] [] [] [] [] []]; try reflexivity;
    cbn; destruct rest; reflexivity.
Qed.

Lemma wellEscaped_escapeEach (s : string) : wellEscaped (escapeEach s) = true.
Proof.
  induction s as [|a s IH]; [reflexivity|].
  simpl escapeEach. rewrite wellEscaped_entity. exact IH.
Qed.

(** ** The lines and the text elements of [buildSvg] *)

Lemma linesFrom_concat (m : nat) (ws : list Word) :
  (1 <= m)%nat ->
  forall fuel i, (length ws - i <= fuel)%nat ->
    concat (linesFrom fuel m ws i) = skipn i ws.
Proof.
  intros Hm. induction fuel as [|fuel IH]; intros i Hi; simpl.
  - symmetry. apply skipn_all2. lia.
  - destruct (i <? length ws)%nat eqn:E.
    + apply Nat.ltb_lt in E. simpl. rewrite IH by lia.
      rewrite (Nat.add_comm i m), <- skipn_skipn. apply firstn_skipn.
    + apply Nat.ltb_ge in E. symmetry. apply skipn_all2. exact E.
Qed.

Lemma splitLines_concat (m : nat) (ws : list Word) :
  (1 <= m)%nat -> concat (splitLines m ws) = ws.
Proof.
  intros Hm. unfold splitLines.
  rewrite (linesFrom_concat m ws Hm) by lia. reflexivity.
Qed.

Section SvgText.
Variables (chunk : Chunk) (style : Style) (activeLang : string).

Let family : string := escapeXml (or_str (text_fontFamily style) "Arial, sans-serif").

Lemma karaokeWords_parts (y : Q) (lineWords : list Word)
      (acc : list TextElement) (xPos : Q) :
  map escapedParts
      (fst (fold_left (karaokeWordStep chunk style activeLang y) lineWords (acc, xPos)))
  = map escapedParts acc
    ++ map (fun w => (family, escapeXml (w_word w))) lineWords.
Proof.
  revert acc xPos. induction lineWords as [|wo lw IH]; intros acc xPos; simpl.
  - now rewrite app_nil_r.
  - rewrite IH, map_app, <- app_assoc. reflexivity.
Qed.

Lemma karaokeLines_parts (ls : list (list Word)) (acc : list TextElement) (li : nat) :
  map escapedParts (fst (fold_left (karaokeLineStep chunk style activeLang) ls (acc, li)))
  = map escapedParts acc
    ++ map (fun w => (family, escapeXml (w_word w))) (concat ls).
Proof.
  revert acc li. induction ls as [|lw ls IH]; intros acc li; simpl.
  - now rewrite app_nil_r.
  - rewrite IH, karaokeWords_parts, map_app, <- app_assoc. reflexivity.
Qed.

Lemma plainLines_parts (ls : list (list Word)) (acc : list TextElement) (li : nat) :
  map escapedParts (fst (fold_left (plainLineStep chunk style activeLang) ls (acc, li)))
  = map escapedParts acc
    ++ map (fun lw => (family, escapeXml (lineTextOf lw))) ls.
Proof.
  revert acc li. induction ls as [|lw ls IH]; intros acc li; simpl.
  - now rewrite app_nil_r.
  - rewrite IH, map_app, <- app_assoc. reflexivity.
Qed.
End SvgText.

(** C10. [escapeXml] replaces every occurrence of the five special
    characters by its entity and leaves the other characters alone, so its
    result holds no raw [<], [>], double quote or apostrophe and no [&] that
    does not open an entity; and in the document built by [buildSvg] the
    [lang] attribute, the font family of every text element and its text
    (each word in karaoke mode, each line otherwise) are results of
    [escapeXml]. *)
Theorem escapeXml_in_svg (s : string) (chunk : Chunk) (style : Style)
        (mode activeLang : string) :
  escapeXml s = escapeEach s /\
  wellEscaped (escapeXml s) = true /\
  let svg := buildSvg chunk style mode activeLang in
  let fontFamily := or_str (text_fontFamily style) "Arial, sans-serif" in
  let maxPerLine := or_nat (text_maxWordsPerLine style) 2 in
  svg_lang svg
  = match activeLang with
    | EmptyString => None
    | _ => Some (escapeXml activeLang)
    end /\
  map escapedParts (svg_text svg)
  = if String.eqb mode "karaoke"
    then map (fun w => (escapeXml fontFamily, escapeXml (w_word w))) (words chunk)
    else map (fun l => (escapeXml fontFamily, escapeXml (lineTextOf l)))
             (splitLines maxPerLine (words chunk)).
Proof.
  split; [apply escapeXml_escapeEach|].
  split; [rewrite escapeXml_escapeEach; apply wellEscaped_escapeEach|].
  cbv zeta. split; [reflexivity|].
  unfold buildSvg. simpl svg_text. destruct (String.eqb mode "karaoke").
  - rewrite karaokeLines_parts. simpl app.
    rewrite splitLines_concat by (apply or_nat_pos; lia). reflexivity.
  - rewrite plainLines_parts. reflexivity.
Qed.

(** ** The concat timeline *)

Lemma entries_pairsOf (es : list (string * Q)) : entries (pairsOf es) = es.
Proof.
  induction es as [|[p d] es IH]; simpl; [reflexivity | now rewrite IH].
Qed.

Lemma entries_pairsOf_trailing (es : list (string * Q)) (p : string) :
  entries (pairsOf es ++ [FileLine p]) = es.
Proof.
  induction es as [|[p' d] es IH]; simpl; [reflexivity | now rewrite IH].
Qed.

Lemma pairsOf_app (es1 es2 : list (string * Q)) :
  pairsOf (es1 ++ es2) = pairsOf es1 ++ pairsOf es2.
Proof. apply flat_map_app. Qed.

Lemma fileLines_pairsOf (es : list (string * Q)) :
  filter isFileLine (pairsOf es) = map (fun e => FileLine (fst e)) es.
Proof.
  induction es as [|[p d] es IH]; simpl; [reflexivity | now rewrite IH].
Qed.

(** The loop and the fill to the end, from any state. *)
Lemma concat_loop (blankPath : string) (audioDuration : Q)
      (frameFiles : list FrameFile) (lines : list Line) (cursor : Q) :
  (let '(lines', cursor') := fold_left (concatStep blankPath) frameFiles (lines, cursor) in
   if Qlt_bool cursor' (audioDuration - (1 # 100))
   then lines' ++ [FileLine blankPath; DurationLine (audioDuration - cursor')]
   else lines')
  = lines ++ pairsOf (timelineFrom blankPath audioDuration cursor frameFiles).
Proof.
  revert lines cursor. induction frameFiles as [|f rest IH]; intros lines cursor.
  - simpl. destruct (Qlt_bool cursor (audioDuration - (1 # 100))); simpl.
    + reflexivity.
    + now rewrite app_nil_r.
  - change (fold_left (concatStep blankPath) (f :: rest) (lines, cursor))
      with (fold_left (concatStep blankPath) rest (concatStep blankPath (lines, cursor) f)).
    unfold concatStep at 2. rewrite IH. simpl timelineFrom.
    destruct (Qlt_bool (1 # 100) (ff_start f - cursor)); simpl;
      rewrite <- !app_assoc; reflexivity.
Qed.

Lemma concatBody_eq (frameFiles : list FrameFile) (blankPath : string)
      (audioDuration : Q) :
  concatBody frameFiles blankPath audioDuration
  = pairsOf (timelineFrom blankPath audioDuration 0 frameFiles).
Proof.
  unfold concatBody. apply (concat_loop blankPath audioDuration frameFiles [] 0).
Qed.

Lemma last_isFileLine (l : list Line) (d : Line) :
  isFileLine d = true -> forallb isFileLine l = true ->
  exists p, last l d = FileLine p.
Proof.
  revert d. induction l as [|x l IH]; intros d Hd Hl.
  - destruct d as [p|q]; [exists p; reflexivity | discriminate].
  - simpl in Hl. apply andb_true_iff in Hl. destruct Hl as [Hx Hl].
    destruct l as [|y l].
    + destruct x as [p|q]; [exists p; reflexivity | discriminate].
    + apply (IH d Hd Hl).
Qed.

Lemma last_fileLine (es : list (string * Q)) (e : string * Q) :
  exists p, last (map (fun e0 => FileLine (fst e0)) es) (FileLine (fst e)) = FileLine p.
Proof.
  apply last_isFileLine; [reflexivity|].
  induction es as [|e1 es IH]; [reflexivity | exact IH].
Qed.

(** The entries of the concat file: those of the loop and the final fill,
    or the single blank entry when there are none. *)
Lemma entries_buildConcatFile (frameFiles : list FrameFile) (blankPath : string)
      (audioDuration : Q) :
  entries (buildConcatFile frameFiles blankPath audioDuration)
  = match timelineFrom blankPath audioDuration 0 frameFiles with
    | [] => [(blankPath, audioDuration)]
    | e :: es => e :: es
    end.
Proof.
  unfold buildConcatFile. rewrite concatBody_eq, fileLines_pairsOf.
  destruct (timelineFrom blankPath audioDuration 0 frameFiles) as [|e es].
  - reflexivity.
  - change (map (fun e0 : string * Q => FileLine (fst e0)) (e :: es))
      with (FileLine (fst e) :: map (fun e0 : string * Q => FileLine (fst e0)) es).
    unfold pop.
    destruct (last_fileLine (e :: es) e) as [p Hp].
    change (map (fun e0 : string * Q => FileLine (fst e0)) (e :: es))
      with (FileLine (fst e) :: map (fun e0 : string * Q => FileLine (fst e0)) es) in Hp.
    rewrite Hp. apply entries_pairsOf_trailing.
Qed.

(** Every entry written by the loop or by the final fill lasts more than
    0.01 s. *)
Lemma timelineFrom_durations (blankPath : string) (audioDuration : Q)
      (frameFiles : list FrameFile) (cursor : Q) :
  Forall (fun e => 1 # 100 < snd e)
         (timelineFrom blankPath audioDuration cursor frameFiles).
Proof.
  revert cursor. induction frameFiles as [|f rest IH]; intros cursor; simpl.
  - destruct (Qlt_bool cursor (audioDuration - (1 # 100))) eqn:E; [|constructor].
    apply Qlt_bool_iff in E. constructor; [simpl; lra | constructor].
  - apply Forall_app. split.
    + destruct (Qlt_bool (1 # 100) (ff_start f - cursor)) eqn:E; [|constructor].
      apply Qlt_bool_iff in E. constructor; [exact E | constructor].
    + constructor; [|apply IH]. simpl.
      destruct (Math_max_spec (ff_end f - ff_start f) (33 # 1000)) as [[H ->] | [H ->]]; lra.
Qed.

Lemma Forall_adjacent {A : Type} (P : A -> Prop) (l : list A) :
  Forall P l -> adjacent (fun a b => P a /\ P b) l.
Proof.
  induction 1 as [|x l Hx Hl IH]; [exact I|].
  destruct l as [|y l]; [exact I|].
  inversion Hl; subst. split; [split; assumption | exact IH].
Qed.

Lemma Qnat_S (n : nat) : Qnat (S n) == Qnat n + 1.
Proof.
  unfold Qnat. rewrite Nat2Z.inj_succ. unfold Z.succ.
  rewrite inject_Z_plus. reflexivity.
Qed.

Lemma Qsum_app (l1 l2 : list Q) : Qsum (l1 ++ l2) == Qsum l1 + Qsum l2.
Proof.
  induction l1 as [|x l1 IH]; simpl; [lra | rewrite IH; lra].
Qed.

(** The total of the loop and the final fill over frames in sequence:
    each gap of at most 0.01 s that is left out costs at most 0.01 s, each
    frame raised to the floor adds at most 0.033 s. *)
Lemma timelineFrom_total (blankPath : string) (audioDuration : Q)
      (frameFiles : list FrameFile) (cursor : Q) :
  inSequence cursor frameFiles -> endOf cursor frameFiles <= audioDuration ->
  let total := Qsum (map snd (timelineFrom blankPath audioDuration cursor frameFiles)) in
  let n := Qnat (length frameFiles) in
  audioDuration - cursor - (1 # 100) * (n + 1) <= total /\
  total <= audioDuration - cursor + (33 # 1000) * n.
Proof.
  revert cursor. induction frameFiles as [|f rest IH]; intros cursor Hseq Hend; cbv zeta.
  - simpl in *. unfold Qnat. simpl Z.of_nat. change (inject_Z 0) with 0.
    destruct (Qlt_bool cursor (audioDuration - (1 # 100))) eqn:E; simpl.
    + split; lra.
    + apply Qlt_bool_false_iff in E. split; lra.
  - destruct Hseq as [Hcs [Hse Hseq]]. simpl in Hend.
    specialize (IH (ff_end f) Hseq Hend). cbv zeta in IH. destruct IH as [IHl IHu].
    simpl timelineFrom. rewrite map_app, Qsum_app.
    simpl length. rewrite Qnat_S.
    change (map snd ((path f, Math_max (ff_end f - ff_start f) (33 # 1000))
                       :: timelineFrom blankPath audioDuration (ff_end f) rest))
      with (Math_max (ff_end f - ff_start f) (33 # 1000)
              :: map snd (timelineFrom blankPath audioDuration (ff_end f) rest)).
    change (Qsum (Math_max (ff_end f - ff_start f) (33 # 1000)
                    :: map snd (timelineFrom blankPath audioDuration (ff_end f) rest)))
      with (Math_max (ff_end f - ff_start f) (33 # 1000)
            + Qsum (map snd (timelineFrom blankPath audioDuration (ff_end f) rest))).
    set (tl := Qsum (map snd (timelineFrom blankPath audioDuration (ff_end f) rest))) in *.
    set (n := Qnat (length rest)) in *.
    assert (Hgap : ff_start f - cursor - (1 # 100)
                   <= Qsum (map snd (if Qlt_bool (1 # 100) (ff_start f - cursor)
                                     then [(blankPath, ff_start f - cursor)] else []))
                   <= ff_start f - cursor).
    { destruct (Qlt_bool (1 # 100) (ff_start f - cursor)) eqn:E; simpl.
      - split; lra.
      - apply Qlt_bool_false_iff in E. split; lra. }
    destruct Hgap as [Hg1 Hg2].
    destruct (Math_max_spec (ff_end f - ff_start f) (33 # 1000)) as [[H ->] | [H ->]];
      split; lra.
Qed.

Lemma Qnat_nonneg (n : nat) : 0 <= Qnat n.
Proof.
  unfold Qnat. change 0 with (inject_Z 0). rewrite <- Zle_Qle. lia.
Qed.

(** C1, as the code has it. For frames in sequence from time 0 (none
    starts before the end of the one before it, none ends before it starts)
    and an audio duration not below the last frame's end, with [n] the
    number of frames: the entries are, frame after frame, a filler where
    the gap exceeds 0.01 s and the frame's own entry, then a filler to the
    end of the audio where more than 0.01 s is left (the blank frame alone
    when nothing was written); their durations add up to at least
    [audioDuration - 0.01 * (n + 1)] and at most
    [audioDuration + 0.033 * n], and of any two consecutive entries both
    last a positive time, so no two consecutive entries are zero-duration
    fillers. *)
Theorem timeline_total_bounds (frameFiles : list FrameFile) (blankPath : string)
        (audioDuration : Q) :
  inSequence 0 frameFiles -> endOf 0 frameFiles <= audioDuration ->
  let out := entries (buildConcatFile frameFiles blankPath audioDuration) in
  let n := Qnat (length frameFiles) in
  out = match timelineFrom blankPath audioDuration 0 frameFiles with
        | [] => [(blankPath, audioDuration)]
        | e :: es => e :: es
        end /\
  audioDuration - (1 # 100) * (n + 1) <= Qsum (map snd out) /\
  Qsum (map snd out) <= audioDuration + (33 # 1000) * n /\
  adjacent (fun e1 e2 => 0 < snd e1 /\ 0 < snd e2) out.
Proof.
  intros Hseq Hend. cbv zeta. split; [apply entries_buildConcatFile|].
  rewrite entries_buildConcatFile.
  pose proof (timelineFrom_total blankPath audioDuration frameFiles 0 Hseq Hend) as Ht.
  pose proof (timelineFrom_durations blankPath audioDuration frameFiles 0) as Hd.
  pose proof (Qnat_nonneg (length frameFiles)) as Hn.
  cbv zeta in Ht. destruct Ht as [Hl Hu].
  destruct (timelineFrom blankPath audioDuration 0 frameFiles) as [|e es] eqn:E.
  - simpl in *. repeat split; lra.
  - repeat split; try lra.
    apply Forall_adjacent. eapply Forall_impl; [|exact Hd].
    intros a Ha. simpl in Ha. lra.
Qed.

(** Frames whose gaps of 1/128 s are each left out: four frames over 4 s
    of audio give entries that add up to 4 - 3/128 = 3.9765625 s, outside
    the 0.02 s tolerance. *)
Lemma timeline_tolerance_counterexample :
  ~ (forall frameFiles blankPath audioDuration,
        Forall (fun f => ff_start f <= ff_end f) frameFiles ->
        endOf 0 frameFiles <= audioDuration ->
        audioDuration - (2 # 100)
        <= totalOf (buildConcatFile frameFiles blankPath audioDuration)
        <= audioDuration + (2 # 100)).
Proof.
  intros H. destruct (H closeFrames "blank"%string 4) as [Hlow _].
  - repeat constructor; vm_compute; discriminate.
  - vm_compute. discriminate.
  - vm_compute in Hlow. apply Hlow. reflexivity.
Qed.

Lemma timeline_total_bounds_witness :
  let out := entries (buildConcatFile helloFrames "blank" 3) in
  let n := Qnat (length helloFrames) in
  out = match timelineFrom "blank" 3 0 helloFrames with
        | [] => [("blank"%string, 3)]
        | e :: es => e :: es
        end /\
  3 - (1 # 100) * (n + 1) <= Qsum (map snd out) /\
  Qsum (map snd out) <= 3 + (33 # 1000) * n /\
  adjacent (fun e1 e2 => 0 < snd e1 /\ 0 < snd e2) out.
Proof.
  apply (timeline_total_bounds helloFrames "blank" 3).
  - simpl. repeat split; vm_compute; discriminate.
  - vm_compute. discriminate.
Defined.

(** The end-to-end example: "hello world", a gap, "today", and the fill
    to 3.0 s. *)
Lemma timeline_hello_world :
  entries (buildConcatFile helloFrames "blank" 3)
  = [("f0", 9 # 10); ("blank", 11 # 10); ("f1", 5 # 10); ("blank", 5 # 10)]%string.
Proof. reflexivity. Qed.

(** One iteration of the loop: the filler is written exactly when the gap
    exceeds 0.01 s and lasts the gap; the frame's entry lasts
    [max (end - start) 0.033]; the cursor moves to the frame's end. *)
Lemma concatStep_spec (blankPath : string) (lines : list Line) (cursor : Q)
      (f : FrameFile) :
  concatStep blankPath (lines, cursor) f
  = (lines
       ++ (if Qlt_bool (1 # 100) (ff_start f - cursor)
           then [FileLine blankPath; DurationLine (ff_start f - cursor)]
           else [])
       ++ [FileLine (path f);
           DurationLine (Math_max (ff_end f - ff_start f) minimumFrameDuration)],
     ff_end f).
Proof.
  unfold concatStep.
  destruct (Qlt_bool (1 # 100) (ff_start f - cursor)); simpl;
    rewrite <- ?app_assoc; reflexivity.
Qed.

(** C6 at a frame of no duration: whatever frame rate the style asks for,
    the entry of the frame lasts 0.033 s; that is less than the frame
    period at 30 frames per second (the default) and at 24, and it is not
    the frame period at 60. *)
Theorem content_floor_ignores_fps (fps : Q) :
  entries (timelineOfRun [mkWord "a" 1 1] (styleWithFps fps) "word" "/tmp/s" 2)
  = [("/tmp/s/frame_blank.png", 1); ("/tmp/s/frame_0000.png", minimumFrameDuration);
     ("/tmp/s/frame_blank.png", 1)]%string /\
  fpsOf emptyStyle = 30 /\
  minimumFrameDuration < 1 / fpsOf emptyStyle /\
  minimumFrameDuration < 1 / fpsOf (styleWithFps 24) /\
  ~ minimumFrameDuration == 1 / fpsOf (styleWithFps 60).
Proof.
  split; [reflexivity|]. split; [reflexivity|].
  repeat split; vm_compute; discriminate.
Qed.

(** C7. A run without words: no chunk and no frame is built, the audio
    duration is the probed one (0 when it could not be read), and the
    concat file is the blank frame with a duration equal to it, followed by
    the trailing blank line: a single filler entry. *)
Theorem empty_words_timeline (style : Style) (mode tmpDir : string) (probed : Q) :
  framesOfRun [] style mode = [] /\
  audioDurationOf probed [] = probed /\
  exists d,
    d == probed /\
    timelineOfRun [] style mode tmpDir probed
    = [FileLine (blankPathOf tmpDir); DurationLine d; FileLine (blankPathOf tmpDir)] /\
    entries (timelineOfRun [] style mode tmpDir probed) = [(blankPathOf tmpDir, d)].
Proof.
  assert (Hf : framesOfRun [] style mode = []).
  { unfold framesOfRun. rewrite buildFrames_eq.
    destruct (String.eqb mode "karaoke"); reflexivity. }
  split; [exact Hf|]. split; [reflexivity|].
  unfold timelineOfRun. rewrite Hf. simpl renderFrames. simpl audioDurationOf.
  unfold buildConcatFile, concatBody. simpl fold_left. cbv iota beta.
  destruct (Qlt_bool 0 (probed - (1 # 100))).
  - exists (probed - 0). split; [lra|]. split; reflexivity.
  - exists probed. split; [lra|]. split; reflexivity.
Qed.

Lemma buildChunks_chunk_mode_witness :
  length (words (mkChunk [mkWord "a" 0 1; mkWord "b" 1 2] 0 2))
  = maxChunkSize_of (styleWithMaxChunkSize 2).
Proof.
  pose proof (buildChunks_chunk_mode abcWords (styleWithMaxChunkSize 2)) as H.
  cbv zeta in H. destruct H as [_ [H _]].
  apply (H [] (mkChunk [mkWord "a" 0 1; mkWord "b" 1 2] 0 2)
           (mkChunk [mkWord "c" 2 3] 2 3) [] (mkWord "b" 1 2) (mkWord "c" 2 3) []).
  - reflexivity.
  - reflexivity.
  - reflexivity.
  - vm_compute. discriminate.
Defined.

(** ** Loading the words *)

(** C8, as the code has it. When the file can be read: a document that
    does not parse makes [loadWords] throw the parse error, and nothing else
    does; a bare list comes back wrapped with language "en" and probability
    1; every other document, a wrapper object included, comes back as it is,
    so a missing language stays missing there and is set to "en" only where
    [main] reads it. *)
Theorem loadWords_shape (readFileSync : string -> Result string)
        (JSON_parse : string -> Result Json) (wordsPath text : string)
        (fields : list (string * Json)) :
  readFileSync wordsPath = Ok text ->
  loadWords readFileSync JSON_parse wordsPath
  = match JSON_parse text with
    | Throw e => Throw e
    | Ok (JArr items) => Ok (legacyWrapper (JArr items))
    | Ok raw => Ok raw
    end /\
  isThrow (loadWords readFileSync JSON_parse wordsPath) = isThrow (JSON_parse text) /\
  detectedLang None (legacyWrapper (JArr [])) = Ok (JStr "en") /\
  detectedLang None (JObj fields) = Ok (languageInForce fields).
Proof.
  intros Hread. unfold loadWords. rewrite Hread.
  split; [|split; [|split]].
  - destruct (JSON_parse text) as [[ | | | | |]|]; reflexivity.
  - destruct (JSON_parse text) as [[ | | | | |]|]; reflexivity.
  - reflexivity.
  - unfold detectedLang, languageInForce. simpl getProp.
    destruct (lookupField "language" fields) as [v|]; [|reflexivity].
    destruct (truthy (Some v)); reflexivity.
Qed.

(** A wrapper object without a language comes back from [loadWords]
    without one. *)
Lemma loadWords_language_counterexample :
  ~ (forall readFileSync JSON_parse wordsPath text fields,
        readFileSync wordsPath = Ok text ->
        JSON_parse text = Ok (JObj fields) ->
        exists out lang,
          loadWords readFileSync JSON_parse wordsPath = Ok (JObj out) /\
          lookupField "language" out = Some lang).
Proof.
  intros H.
  destruct (H (fun _ => Ok "{ words: [] }"%string)
              (fun _ => Ok (JObj [("words"%string, JArr [])]))
              "words.json"%string "{ words: [] }"%string
              [("words"%string, JArr [])] eq_refl eq_refl)
    as [out [lang [Hout Hlang]]].
  unfold loadWords in Hout. injection Hout as <-. discriminate.
Qed.

Lemma loadWords_shape_witness :
  loadWords (fun _ => Ok "[]"%string) (fun _ => Ok (JArr [])) "words.json"
  = Ok (legacyWrapper (JArr [])) /\
  isThrow (loadWords (fun _ => Ok "[]"%string) (fun _ => Ok (JArr [])) "words.json")
  = false /\
  detectedLang None (legacyWrapper (JArr [])) = Ok (JStr "en") /\
  detectedLang None (JObj []) = Ok (languageInForce []).
Proof.
  apply (loadWords_shape (fun _ => Ok "[]"%string) (fun _ => Ok (JArr []))
                         "words.json"%string "[]"%string []).
  reflexivity.
Defined.

Lemma loadWords_unreadable (readFileSync : string -> Result string)
      (JSON_parse : string -> Result Json) (wordsPath : string) (e : Exn) :
  readFileSync wordsPath = Throw e ->
  loadWords readFileSync JSON_parse wordsPath = Throw e.
Proof.
  intros H. unfold loadWords. rewrite H. reflexivity.
Qed.

(** ** Remarks on the defaults *)

(** A configured [maxChunkSize] of 0 is falsy: the limit in force is 4. *)
Remark maxChunkSize_zero_is_default :
  maxChunkSize_of (styleWithMaxChunkSize 0) = 4%nat /\
  map (fun u => length (words u)) (buildChunks abcWords (styleWithMaxChunkSize 0) "chunk")
  = [3%nat].
Proof. split; reflexivity. Qed.

(** A window that ends at time 0 is falsy in [activeEnd || wo.end]: the
    test then compares the word with itself, so a word that lies after the
    window is drawn active. This needs an active word that ends at time 0,
    which [positive_words] rules out. *)
Remark isActive_zero_window :
  let frame := karaokeFrame (mkChunk [mkWord "a" 0 0; mkWord "b" (1 # 10) (5 # 10)]
                                     0 (5 # 10))
                            (mkWord "a" 0 0) in
  isActive frame (mkWord "b" (1 # 10) (5 # 10)) = true /\
  ~ intersects (1 # 10) (5 # 10) 0 0.
Proof.
  split; [reflexivity|].
  intros [t [H1 [_ [_ H4]]]]. lra.
Qed.

(** ** The four decimals of a duration line *)

Lemma shown_close (d : Q) : d - (1 # 20000) <= shown d /\ shown d <= d + (1 # 20000).
Proof.
  unfold shown, toFixed4. destruct (Qlt_bool d 0).
  - pose proof (Qfloor_le (- d * 10000 + (1 # 2))) as Hle.
    pose proof (Qlt_floor (- d * 10000 + (1 # 2))) as Hlt.
    set (n := Qfloor (- d * 10000 + (1 # 2))) in *.
    rewrite inject_Z_plus in Hlt.
    rewrite (Qmake_Qdiv (- n) 10000). rewrite inject_Z_opp.
    change (inject_Z (Z.pos 10000)) with 10000.
    change (inject_Z 1) with 1 in Hlt.
    split; apply Qle_shift_div_l || apply Qle_shift_div_r; try reflexivity; lra.
  - pose proof (Qfloor_le (d * 10000 + (1 # 2))) as Hle.
    pose proof (Qlt_floor (d * 10000 + (1 # 2))) as Hlt.
    set (n := Qfloor (d * 10000 + (1 # 2))) in *.
    rewrite inject_Z_plus in Hlt.
    rewrite (Qmake_Qdiv n 10000).
    change (inject_Z (Z.pos 10000)) with 10000.
    change (inject_Z 1) with 1 in Hlt.
    split; apply Qle_shift_div_l || apply Qle_shift_div_r; try reflexivity; lra.
Qed.

(** The durations of [closeFrames] as shown, 1.0000 and three times
    0.9922, still add up to less than 4 - 0.02. *)
Lemma closeFrames_shown_total :
  map (fun e => toFixed4 (snd e)) (entries (buildConcatFile closeFrames "blank" 4))
  = [10000; 9922; 9922; 9922]%Z /\
  shownTotalOf (buildConcatFile closeFrames "blank" 4) < 4 - (2 # 100).
Proof.
  split; [reflexivity|]. vm_compute. reflexivity.
Qed.

(** * Further properties of the code *)

(** ** The shape of the concat file *)

Lemma last_map_default {A B : Type} (g : A -> B) (l : list A) (d : A) :
  last (map g l) (g d) = g (last l d).
Proof.
  induction l as [|x l IH]; [reflexivity|].
  destruct l as [|y l]; [reflexivity|]. exact IH.
Qed.

Lemma length_pairsOf (es : list (string * Q)) :
  length (pairsOf es) = (2 * length es)%nat.
Proof.
  induction es as [|e es IH]; simpl; [reflexivity|]. rewrite IH. lia.
Qed.

Lemma buildConcatFile_eq (frameFiles : list FrameFile) (blankPath : string)
      (audioDuration : Q) :
  buildConcatFile frameFiles blankPath audioDuration
  = match timelineFrom blankPath audioDuration 0 frameFiles with
    | [] => pairsOf [(blankPath, audioDuration)] ++ [FileLine blankPath]
    | e :: es => pairsOf (e :: es) ++ [FileLine (fst (last (e :: es) e))]
    end.
Proof.
  unfold buildConcatFile. rewrite concatBody_eq, fileLines_pairsOf.
  destruct (timelineFrom blankPath audioDuration 0 frameFiles) as [|e es].
  - reflexivity.
  - change (map (fun e0 : string * Q => FileLine (fst e0)) (e :: es))
      with (FileLine (fst e) :: map (fun e0 : string * Q => FileLine (fst e0)) es).
    unfold pop.
    change (FileLine (fst e) :: map (fun e0 : string * Q => FileLine (fst e0)) es)
      with (map (fun e0 : string * Q => FileLine (fst e0)) (e :: es)).
    rewrite (last_map_default (fun e0 : string * Q => FileLine (fst e0)) (e :: es) e).
    reflexivity.
Qed.

(** X1. Whatever the frames and the duration, the concat file is a
    non-empty list of entries, each written as a [file] line followed by its
    [duration] line, and one more [file] line that repeats the file of the
    last entry; so it has an odd number of lines. *)
Theorem concat_file_shape (frameFiles : list FrameFile) (blankPath : string)
        (audioDuration : Q) :
  exists es e,
    pop es = Some e /\
    buildConcatFile frameFiles blankPath audioDuration
    = pairsOf es ++ [FileLine (fst e)] /\
    length (buildConcatFile frameFiles blankPath audioDuration)
    = S (2 * length es).
Proof.
  rewrite buildConcatFile_eq.
  destruct (timelineFrom blankPath audioDuration 0 frameFiles) as [|e es].
  - exists [(blankPath, audioDuration)], (blankPath, audioDuration).
    repeat split.
  - exists (e :: es), (last (e :: es) e). split; [reflexivity|].
    split; [reflexivity|].
    rewrite length_app, length_pairsOf. simpl length. lia.
Qed.

(** ** The frames in the timeline *)

Lemma timelineFrom_content (blankPath : string) (audioDuration : Q)
      (frameFiles : list FrameFile) (cursor : Q) :
  Forall (fun f => path f <> blankPath) frameFiles ->
  filter (fun e => negb (isFiller blankPath e))
         (timelineFrom blankPath audioDuration cursor frameFiles)
  = map contentEntry frameFiles.
Proof.
  intros Hp. revert cursor.
  induction Hp as [|f rest Hf Hrest IH]; intros cursor; simpl.
  - destruct (Qlt_bool cursor (audioDuration - (1 # 100))); [|reflexivity].
    simpl. unfold isFiller. simpl. rewrite String.eqb_refl. reflexivity.
  - rewrite filter_app.
    assert (Hgap : filter (fun e => negb (isFiller blankPath e))
                     (if Qlt_bool (1 # 100) (ff_start f - cursor)
                      then [(blankPath, ff_start f - cursor)] else []) = []).
    { destruct (Qlt_bool (1 # 100) (ff_start f - cursor)); [|reflexivity].
      simpl. unfold isFiller. simpl. rewrite String.eqb_refl. reflexivity. }
    rewrite Hgap. simpl. unfold isFiller at 1. simpl fst.
    apply String.eqb_neq in Hf. rewrite Hf. simpl. rewrite IH. reflexivity.
Qed.

Lemma buildConcatFile_content (frameFiles : list FrameFile)
      (blankPath : string) (audioDuration : Q) :
  Forall (fun f => path f <> blankPath) frameFiles ->
  filter (fun e => negb (isFiller blankPath e))
         (entries (buildConcatFile frameFiles blankPath audioDuration))
  = map contentEntry frameFiles.
Proof.
  intros Hp. rewrite entries_buildConcatFile.
  pose proof (timelineFrom_content blankPath audioDuration frameFiles 0 Hp) as H.
  destruct (timelineFrom blankPath audioDuration 0 frameFiles) as [|e es].
  - rewrite <- H. simpl. unfold isFiller. simpl. rewrite String.eqb_refl. reflexivity.
  - exact H.
Qed.

(** X2. When no frame is stored under the blank frame's path, the entries
    of the concat file other than the blank ones are the frames, each once
    and in their order, each lasting [max (end - start) 0.033]. *)
Theorem content_entries_in_frame_order (frameFiles : list FrameFile)
        (blankPath : string) (audioDuration : Q) :
  Forall (fun f => path f <> blankPath) frameFiles ->
  filter (fun e => negb (isFiller blankPath e))
         (entries (buildConcatFile frameFiles blankPath audioDuration))
  = map contentEntry frameFiles.
Proof. apply buildConcatFile_content. Qed.

Lemma content_entries_in_frame_order_witness :
  filter (fun e => negb (isFiller "blank" e))
         (entries (buildConcatFile helloFrames "blank" 3))
  = map contentEntry helloFrames.
Proof.
  apply (content_entries_in_frame_order helloFrames "blank"%string 3).
  repeat constructor; discriminate.
Defined.

(** ** Timings that are kept exactly *)

Lemma timelineFrom_clean (blankPath : string) (audioDuration : Q)
      (frameFiles : list FrameFile) (cursor : Q) :
  cleanTimings cursor frameFiles audioDuration ->
  Qsum (map snd (timelineFrom blankPath audioDuration cursor frameFiles))
  == audioDuration - cursor.
Proof.
  revert cursor. induction frameFiles as [|f rest IH]; intros cursor Hc.
  - simpl in *. destruct (Qlt_bool cursor (audioDuration - (1 # 100))) eqn:E; simpl.
    + lra.
    + apply Qlt_bool_false_iff in E. destruct Hc as [Hc | Hc]; lra.
  - destruct Hc as [Hgap [Hlen Hc]]. specialize (IH (ff_end f) Hc).
    simpl timelineFrom. rewrite map_app, Qsum_app.
    change (map snd ((path f, Math_max (ff_end f - ff_start f) (33 # 1000))
                       :: timelineFrom blankPath audioDuration (ff_end f) rest))
      with (Math_max (ff_end f - ff_start f) (33 # 1000)
              :: map snd (timelineFrom blankPath audioDuration (ff_end f) rest)).
    change (Qsum (Math_max (ff_end f - ff_start f) (33 # 1000)
                    :: map snd (timelineFrom blankPath audioDuration (ff_end f) rest)))
      with (Math_max (ff_end f - ff_start f) (33 # 1000)
            + Qsum (map snd (timelineFrom blankPath audioDuration (ff_end f) rest))).
    rewrite IH.
    assert (Hg : Qsum (map snd (if Qlt_bool (1 # 100) (ff_start f - cursor)
                                then [(blankPath, ff_start f - cursor)] else []))
                 == ff_start f - cursor).
    { destruct (Qlt_bool (1 # 100) (ff_start f - cursor)) eqn:E; simpl.
      - lra.
      - apply Qlt_bool_false_iff in E. destruct Hgap as [Hgap | Hgap]; lra. }
    rewrite Hg.
    destruct (Math_max_spec (ff_end f - ff_start f) (33 # 1000)) as [[H ->] | [H ->]]; lra.
Qed.

(** With clean timings the numbers that the loop hands to [toFixed(4)]
    add up to the audio duration. *)
Lemma clean_timings_total (frameFiles : list FrameFile) (blankPath : string)
      (audioDuration : Q) :
  cleanTimings 0 frameFiles audioDuration ->
  totalOf (buildConcatFile frameFiles blankPath audioDuration) == audioDuration.
Proof.
  intros Hc. unfold totalOf. rewrite entries_buildConcatFile.
  pose proof (timelineFrom_clean blankPath audioDuration frameFiles 0 Hc) as H.
  destruct (timelineFrom blankPath audioDuration 0 frameFiles) as [|e es].
  - simpl in *. lra.
  - rewrite H. lra.
Qed.

Lemma shown_sum_close (l : list Q) :
  Qsum l - (1 # 20000) * Qnat (length l) <= Qsum (map shown l) /\
  Qsum (map shown l) <= Qsum l + (1 # 20000) * Qnat (length l).
Proof.
  induction l as [|x l [IHl IHu]].
  - simpl. unfold Qnat. simpl Z.of_nat. change (inject_Z 0) with 0. split; lra.
  - simpl length. rewrite Qnat_S.
    change (Qsum (x :: l)) with (x + Qsum l).
    change (Qsum (map shown (x :: l))) with (shown x + Qsum (map shown l)).
    destruct (shown_close x) as [Hl Hu]. split; lra.
Qed.

(** X3. With clean timings (every gap 0 or above 0.01 s, every frame at
    least 0.033 s long, the rest after the last frame 0 or above 0.01 s) the
    durations as the concat file shows them, with four decimals, add up to
    the audio duration within 0.00005 s for each entry. *)
Theorem clean_timings_shown_total (frameFiles : list FrameFile) (blankPath : string)
        (audioDuration : Q) :
  cleanTimings 0 frameFiles audioDuration ->
  let out := buildConcatFile frameFiles blankPath audioDuration in
  let k := Qnat (length (entries out)) in
  audioDuration - (1 # 20000) * k <= shownTotalOf out /\
  shownTotalOf out <= audioDuration + (1 # 20000) * k.
Proof.
  intros Hc. cbv zeta.
  pose proof (clean_timings_total frameFiles blankPath audioDuration Hc) as Ht.
  unfold totalOf in Ht. unfold shownTotalOf.
  rewrite <- (map_map snd shown).
  destruct (shown_sum_close
              (map snd (entries (buildConcatFile frameFiles blankPath audioDuration))))
    as [Hl Hu].
  rewrite length_map in Hl, Hu. split; lra.
Qed.

Lemma clean_timings_shown_total_witness :
  let out := buildConcatFile helloFrames "blank" 3 in
  let k := Qnat (length (entries out)) in
  3 - (1 # 20000) * k <= shownTotalOf out /\
  shownTotalOf out <= 3 + (1 # 20000) * k.
Proof.
  apply (clean_timings_shown_total helloFrames "blank"%string 3).
  simpl. repeat split; vm_compute; try (left; reflexivity);
    try (right; reflexivity); try discriminate.
Defined.

(** ** The frame files of a run *)

Lemma renderFrames_acc (tmpDir : string) (frames : list Chunk) (acc : list FrameFile) :
  fold_left (renderStep tmpDir) frames acc
  = acc ++ frameFilesFrom tmpDir (length acc) frames.
Proof.
  revert acc. induction frames as [|frame rest IH]; intros acc; simpl.
  - now rewrite app_nil_r.
  - rewrite IH. unfold renderStep. rewrite length_app, <- app_assoc. simpl.
    rewrite Nat.add_1_r. reflexivity.
Qed.

Lemma renderFrames_eq (tmpDir : string) (frames : list Chunk) :
  renderFrames tmpDir frames = frameFilesFrom tmpDir 0 frames.
Proof. apply (renderFrames_acc tmpDir frames []). Qed.

Lemma frameFilesFrom_spans (tmpDir : string) (frames : list Chunk) (i : nat) :
  map spanOfFile (frameFilesFrom tmpDir i frames) = map spanOfChunk frames.
Proof.
  revert i. induction frames as [|frame rest IH]; intros i; simpl;
    [reflexivity | now rewrite IH].
Qed.

Lemma inSequence_spans (frameFiles : list FrameFile) (cursor : Q) :
  inSequence cursor frameFiles <-> spansInSequence cursor (map spanOfFile frameFiles).
Proof.
  revert cursor. induction frameFiles as [|f rest IH]; intros cursor; simpl.
  - tauto.
  - rewrite IH. tauto.
Qed.

Lemma endOf_spans (frameFiles : list FrameFile) (cursor : Q) :
  endOf cursor frameFiles = spansEnd cursor (map spanOfFile frameFiles).
Proof.
  revert cursor. induction frameFiles as [|f rest IH]; intros cursor; simpl;
    [reflexivity | apply IH].
Qed.

(** The frames of a run, as spans: the words themselves in karaoke mode,
    the chunks otherwise. *)
Lemma framesOfRun_spans (ws : list Word) (style : Style) (mode : string) :
  map spanOfChunk (framesOfRun ws style mode)
  = if String.eqb mode "karaoke"
    then map spanOfWord ws
    else map spanOfChunk (buildChunks ws style mode).
Proof.
  unfold framesOfRun. rewrite chunksOfRun_eq, buildFrames_eq.
  destruct (String.eqb mode "karaoke"); [|reflexivity].
  rewrite <- (buildChunks_concat ws style mode) at 2.
  induction (buildChunks ws style mode) as [|u chunks IH]; [reflexivity|].
  simpl. rewrite !map_app, IH, map_map. reflexivity.
Qed.

Lemma adjacent_junction {A : Type} (R : A -> A -> Prop) (l1 l2 : list A) (a b : A) :
  adjacent R (l1 ++ l2) -> pop l1 = Some a -> hd_error l2 = Some b -> R a b.
Proof.
  intros Hadj Ha Hb.
  destruct l2 as [|b' l2]; [discriminate|]. simpl in Hb. injection Hb as ->.
  destruct l1 as [|x l1]; [discriminate|].
  assert (Hne : x :: l1 <> []) by discriminate.
  destruct (exists_last Hne) as [l1' [a' Heq]]. rewrite Heq in *.
  rewrite pop_snoc in Ha. injection Ha as ->.
  rewrite <- app_assoc in Hadj. simpl in Hadj.
  apply (adjacent_split R l1' l2 a b Hadj).
Qed.

Lemma words_in_sequence (ws : list Word) (cursor : Q) :
  ordered ws ->
  match ws with [] => True | w :: _ => cursor <= w_start w end ->
  spansInSequence cursor (map spanOfWord ws).
Proof.
  revert cursor. induction ws as [|w rest IH]; intros cursor [Hf Ha] Hc; simpl.
  - exact I.
  - inversion Hf as [|? ? Hw Hrest]; subst.
    split; [exact Hc|]. split; [exact Hw|].
    apply IH.
    + split; [exact Hrest|]. destruct rest; [exact I | apply Ha].
    + destruct rest as [|w' rest']; [exact I | apply Ha].
Qed.

Lemma chunks_in_sequence (chunks : list Chunk) (cursor : Q) :
  Forall chunk_wf chunks ->
  ordered (concat (map words chunks)) ->
  match concat (map words chunks) with [] => True | w :: _ => cursor <= w_start w end ->
  spansInSequence cursor (map spanOfChunk chunks).
Proof.
  revert cursor. induction chunks as [|u rest IH]; intros cursor Hwf Hord Hc.
  - exact I.
  - inversion Hwf as [|? ? [Hne [Hs He]] Hwf']; subst.
    simpl in Hord, Hc.
    destruct (words u) as [|p g] eqn:Eu; [congruence|].
    simpl in Hs. injection Hs as Hs.
    destruct (pop (p :: g)) as [z|] eqn:Ez; [|discriminate].
    simpl in He. injection He as He.
    assert (Hu : ordered (p :: g)).
    { apply (ordered_part [] (p :: g) (concat (map words rest))). exact Hord. }
    destruct (ordered_bounds _ Hu p z p eq_refl Ez (or_introl eq_refl)) as [_ [H1 H2]].
    simpl. unfold spanOfChunk at 1. simpl. rewrite <- Hs, <- He.
    split; [exact Hc|]. split; [lra|].
    apply IH.
    + exact Hwf'.
    + apply (ordered_part (p :: g) (concat (map words rest)) []).
      rewrite app_nil_r. exact Hord.
    + destruct (concat (map words rest)) as [|w' r'] eqn:Er; [exact I|].
      destruct Hord as [_ Hadj].
      apply (adjacent_junction _ (p :: g) (w' :: r') z w' Hadj Ez eq_refl).
Qed.

Lemma framesOfRun_in_sequence (ws : list Word) (style : Style) (mode : string) :
  ordered ws -> startsFromZero ws ->
  spansInSequence 0 (map spanOfChunk (framesOfRun ws style mode)).
Proof.
  intros Hord H0. rewrite framesOfRun_spans.
  destruct (String.eqb mode "karaoke").
  - apply words_in_sequence; [exact Hord|]. destruct ws; [exact I | exact H0].
  - apply chunks_in_sequence.
    + apply buildChunks_wf.
    + rewrite buildChunks_concat. exact Hord.
    + rewrite buildChunks_concat. destruct ws; [exact I | exact H0].
Qed.

Lemma words_spansEnd (ws : list Word) (cursor : Q) :
  spansEnd cursor (map spanOfWord ws)
  = match pop ws with Some w => w_end w | None => cursor end.
Proof.
  revert cursor. induction ws as [|w rest IH]; intros cursor; [reflexivity|].
  simpl spansEnd. rewrite IH.
  destruct rest as [|w' rest']; [reflexivity|].
  change (w :: w' :: rest') with ([w] ++ (w' :: rest')).
  rewrite (pop_app_r [w] (w' :: rest')) by discriminate. reflexivity.
Qed.

Lemma chunks_spansEnd (chunks : list Chunk) (cursor : Q) :
  Forall chunk_wf chunks ->
  spansEnd cursor (map spanOfChunk chunks)
  = match pop (concat (map words chunks)) with Some w => w_end w | None => cursor end.
Proof.
  revert cursor. induction chunks as [|u rest IH]; intros cursor Hwf; [reflexivity|].
  inversion Hwf as [|? ? [Hne [_ He]] Hwf']; subst.
  simpl spansEnd. rewrite (IH _ Hwf'). simpl concat.
  destruct (concat (map words rest)) as [|w' r'] eqn:Er.
  - rewrite app_nil_r. simpl.
    destruct (pop (words u)) as [z|]; [|discriminate].
    simpl in He. injection He as He. now rewrite He.
  - rewrite (pop_app_r (words u) (w' :: r')) by discriminate. reflexivity.
Qed.

Lemma framesOfRun_spansEnd (ws : list Word) (style : Style) (mode : string) :
  spansEnd 0 (map spanOfChunk (framesOfRun ws style mode))
  = match pop ws with Some w => w_end w | None => 0 end.
Proof.
  rewrite framesOfRun_spans. destruct (String.eqb mode "karaoke").
  - apply words_spansEnd.
  - rewrite chunks_spansEnd by apply buildChunks_wf.
    rewrite buildChunks_concat. reflexivity.
Qed.

(** X4. A whole run in any mode, over words in order that do not start
    before time 0, with an audio duration that reaches the end of the last
    word: the frames are in sequence, so with [n] frames the durations of
    the concat file add up to at least [audioDuration - 0.01 * (n + 1)] and
    at most [audioDuration + 0.033 * n]. *)
Theorem run_total_bounds (ws : list Word) (style : Style) (mode tmpDir : string)
        (probed : Q) :
  ordered ws -> startsFromZero ws -> coversWords (audioDurationOf probed ws) ws ->
  let audioDuration := audioDurationOf probed ws in
  let n := Qnat (length (framesOfRun ws style mode)) in
  inSequence 0 (renderFrames tmpDir (framesOfRun ws style mode)) /\
  audioDuration - (1 # 100) * (n + 1)
  <= totalOf (timelineOfRun ws style mode tmpDir probed) /\
  totalOf (timelineOfRun ws style mode tmpDir probed)
  <= audioDuration + (33 # 1000) * n.
Proof.
  intros Hord H0 Hcov. cbv zeta.
  assert (Hseq : inSequence 0 (renderFrames tmpDir (framesOfRun ws style mode))).
  { apply inSequence_spans. rewrite renderFrames_eq, frameFilesFrom_spans.
    apply framesOfRun_in_sequence; assumption. }
  assert (Hend : endOf 0 (renderFrames tmpDir (framesOfRun ws style mode))
                 <= audioDurationOf probed ws).
  { rewrite endOf_spans, renderFrames_eq, frameFilesFrom_spans, framesOfRun_spansEnd.
    unfold coversWords in Hcov. destruct (pop ws); exact Hcov. }
  split; [exact Hseq|].
  unfold totalOf, timelineOfRun. rewrite entries_buildConcatFile.
  pose proof (timelineFrom_total (blankPathOf tmpDir) (audioDurationOf probed ws)
                _ 0 Hseq Hend) as Ht.
  cbv zeta in Ht. destruct Ht as [Hl Hu].
  assert (Hlen : length (renderFrames tmpDir (framesOfRun ws style mode))
                 = length (framesOfRun ws style mode)).
  { rewrite <- (length_map spanOfFile), renderFrames_eq, frameFilesFrom_spans.
    apply length_map. }
  rewrite Hlen in Hl, Hu.
  pose proof (Qnat_nonneg (length (framesOfRun ws style mode))) as Hn.
  destruct (timelineFrom (blankPathOf tmpDir) (audioDurationOf probed ws) 0
              (renderFrames tmpDir (framesOfRun ws style mode))) as [|e es].
  - simpl in *. split; lra.
  - split; lra.
Qed.

Lemma run_total_bounds_witness :
  let audioDuration := audioDurationOf 3 abcWords in
  let n := Qnat (length (framesOfRun abcWords emptyStyle "chunk")) in
  inSequence 0 (renderFrames "/tmp/s" (framesOfRun abcWords emptyStyle "chunk")) /\
  audioDuration - (1 # 100) * (n + 1)
  <= totalOf (timelineOfRun abcWords emptyStyle "chunk" "/tmp/s" 3) /\
  totalOf (timelineOfRun abcWords emptyStyle "chunk" "/tmp/s" 3)
  <= audioDuration + (33 # 1000) * n.
Proof.
  apply (run_total_bounds abcWords emptyStyle "chunk"%string "/tmp/s"%string 3).
  - split.
    + repeat constructor; vm_compute; discriminate.
    + simpl. repeat split; vm_compute; discriminate.
  - vm_compute. discriminate.
  - vm_compute. discriminate.
Defined.

(** ** A run whose audio duration could not be read *)

Lemma timelineFrom_last (blankPath : string) (audioDuration : Q)
      (frameFiles : list FrameFile) (cursor : Q) (f : FrameFile) :
  pop frameFiles = Some f ->
  Qlt_bool (endOf cursor frameFiles) (audioDuration - (1 # 100)) = false ->
  pop (timelineFrom blankPath audioDuration cursor frameFiles) = Some (contentEntry f).
Proof.
  revert cursor. induction frameFiles as [|g rest IH]; intros cursor Hf Hend;
    [discriminate|].
  simpl timelineFrom. simpl in Hend.
  destruct rest as [|g' rest'].
  - simpl in Hf. injection Hf as <-. simpl in *. rewrite Hend.
    change [(path g, Math_max (ff_end g - ff_start g) (33 # 1000))]
      with ([] ++ [contentEntry g]).
    rewrite app_assoc. apply pop_snoc.
  - assert (Hf' : pop (g' :: rest') = Some f).
    { rewrite <- Hf. change (g :: g' :: rest') with ([g] ++ (g' :: rest')).
      symmetry. apply pop_app_r. discriminate. }
    specialize (IH (ff_end g) Hf' Hend).
    assert (Hne : timelineFrom blankPath audioDuration (ff_end g) (g' :: rest') <> []).
    { intros E. rewrite E in IH. discriminate. }
    rewrite pop_app_r by discriminate.
    change ((path g, Math_max (ff_end g - ff_start g) (33 # 1000))
              :: timelineFrom blankPath audioDuration (ff_end g) (g' :: rest'))
      with ([contentEntry g]
              ++ timelineFrom blankPath audioDuration (ff_end g) (g' :: rest')).
    rewrite pop_app_r by exact Hne. exact IH.
Qed.

Lemma pop_frameFilesFrom (tmpDir : string) (frames : list Chunk) (i : nat)
      (frame : Chunk) :
  pop frames = Some frame ->
  pop (frameFilesFrom tmpDir i frames)
  = Some (mkFrameFile (framePath tmpDir (i + length frames - 1))
                      (start frame) (end_ frame)).
Proof.
  revert i. induction frames as [|c rest IH]; intros i Hp; [discriminate|].
  destruct rest as [|c' rest'].
  - simpl in Hp. injection Hp as <-. simpl.
    replace (i + 1 - 1)%nat with i by lia. reflexivity.
  - assert (Hp' : pop (c' :: rest') = Some frame).
    { rewrite <- Hp. change (c :: c' :: rest') with ([c] ++ (c' :: rest')).
      symmetry. apply pop_app_r. discriminate. }
    simpl frameFilesFrom.
    change (mkFrameFile (framePath tmpDir i) (start c) (end_ c)
              :: mkFrameFile (framePath tmpDir (S i)) (start c') (end_ c')
              :: frameFilesFrom tmpDir (S (S i)) rest')
      with ([mkFrameFile (framePath tmpDir i) (start c) (end_ c)]
              ++ frameFilesFrom tmpDir (S i) (c' :: rest')).
    rewrite pop_app_r by discriminate.
    rewrite (IH (S i) Hp'). simpl length.
    replace (S i + S (length rest') - 1)%nat with (i + S (S (length rest')) - 1)%nat
      by lia.
    reflexivity.
Qed.

Lemma framesOfRun_nonempty (w : Word) (rest : list Word) (style : Style)
      (mode : string) :
  framesOfRun (w :: rest) style mode <> [].
Proof.
  intros E.
  pose proof (framesOfRun_spans (w :: rest) style mode) as H. rewrite E in H.
  destruct (String.eqb mode "karaoke"); [discriminate|].
  pose proof (buildChunks_concat (w :: rest) style mode) as Hc.
  destruct (buildChunks (w :: rest) style mode); discriminate.
Qed.

(** X5. A run with words whose audio duration could not be read (the probe
    gave 0): the duration used is the last word's end, and the concat file
    ends with the last frame's own entry, which lasts at least 0.033 s;
    no blank entry follows it. *)
Theorem unknown_duration_ends_with_last_frame (w : Word) (rest : list Word)
        (style : Style) (mode tmpDir : string) :
  let ws := w :: rest in
  let n := length (framesOfRun ws style mode) in
  audioDurationOf 0 ws = w_end (last ws w) /\
  (1 <= n)%nat /\
  exists d,
    pop (entries (timelineOfRun ws style mode tmpDir 0))
    = Some (framePath tmpDir (n - 1), d) /\
    33 # 1000 <= d.
Proof.
  cbv zeta. split; [reflexivity|].
  pose proof (framesOfRun_nonempty w rest style mode) as Hne.
  split.
  { destruct (framesOfRun (w :: rest) style mode); [congruence | simpl; lia]. }
  destruct (pop_nonempty _ Hne) as [frame Hframe].
  pose proof (pop_frameFilesFrom tmpDir _ 0 frame Hframe) as Hfile.
  rewrite <- renderFrames_eq in Hfile. simpl Nat.add in Hfile.
  set (file := mkFrameFile
                 (framePath tmpDir (length (framesOfRun (w :: rest) style mode) - 1))
                 (start frame) (end_ frame)) in *.
  assert (Hend : Qlt_bool (endOf 0 (renderFrames tmpDir (framesOfRun (w :: rest) style mode)))
                          (audioDurationOf 0 (w :: rest) - (1 # 100)) = false).
  { rewrite endOf_spans, renderFrames_eq, frameFilesFrom_spans, framesOfRun_spansEnd.
    change (pop (w :: rest)) with (Some (last (w :: rest) w)).
    change (audioDurationOf 0 (w :: rest)) with (w_end (last (w :: rest) w)).
    apply Qlt_bool_false_iff. lra. }
  pose proof (timelineFrom_last (blankPathOf tmpDir) (audioDurationOf 0 (w :: rest))
                _ 0 file Hfile Hend) as Hlast.
  exists (snd (contentEntry file)). split.
  - unfold timelineOfRun. rewrite entries_buildConcatFile.
    destruct (timelineFrom (blankPathOf tmpDir) (audioDurationOf 0 (w :: rest)) 0
                (renderFrames tmpDir (framesOfRun (w :: rest) style mode)))
      as [|e es]; [discriminate|].
    rewrite Hlast. reflexivity.
  - unfold contentEntry, file. simpl.
    destruct (Math_max_spec (end_ frame - start frame) (33 # 1000))
      as [[H ->] | [H ->]]; lra.
Qed.

(** ** The names of the frame files *)

Lemma string_app_inv_head (a x y : string) : (a ++ x = a ++ y)%string -> x = y.
Proof.
  induction a as [|c a IH]; simpl; intros H; [exact H|].
  injection H as H. apply IH. exact H.
Qed.

Lemma list_ascii_app (x y : string) :
  list_ascii_of_string (x ++ y) = list_ascii_of_string x ++ list_ascii_of_string y.
Proof.
  induction x as [|c x IH]; simpl; [reflexivity | now rewrite IH].
Qed.

Lemma string_app_inv_tail (x y s : string) : (x ++ s = y ++ s)%string -> x = y.
Proof.
  intros H. apply (f_equal list_ascii_of_string) in H.
  rewrite !list_ascii_app in H. apply app_inv_tail in H.
  rewrite <- (string_of_list_ascii_of_string x), <- (string_of_list_ascii_of_string y).
  now rewrite H.
Qed.

Lemma indexOfDigits_stringOfIndex (i : nat) : indexOfDigits (stringOfIndex i) = Some i.
Proof.
  unfold indexOfDigits, stringOfIndex.
  pose proof (Unsigned.of_to i) as H.
  destruct (Nat.to_uint i) as [|d|d|d|d|d|d|d|d|d|d] eqn:E;
    try (unfold NilZero.string_of_uint; rewrite NilEmpty.usu; simpl; now rewrite H).
  simpl in H. subst i. reflexivity.
Qed.

Lemma indexOfDigits_zeros (k : nat) (s : string) :
  indexOfDigits (repeatChar k "0" ++ s) = indexOfDigits s.
Proof.
  induction k as [|k IH]; [reflexivity|].
  rewrite <- IH. unfold indexOfDigits. simpl.
  destruct (NilEmpty.uint_of_string (repeatChar k "0" ++ s)) as [d|]; reflexivity.
Qed.

Lemma indexOfDigits_padStart (i : nat) :
  indexOfDigits (padStart 4 "0" (stringOfIndex i)) = Some i.
Proof.
  unfold padStart. rewrite indexOfDigits_zeros. apply indexOfDigits_stringOfIndex.
Qed.

Lemma framePath_index (tmpDir : string) (i : nat) (digits : string) :
  framePath tmpDir i = pathJoin tmpDir ("frame_" ++ digits ++ ".png") ->
  indexOfDigits digits = Some i.
Proof.
  unfold framePath, pathJoin. intros H.
  apply string_app_inv_head in H. apply (string_app_inv_head "/") in H.
  apply (string_app_inv_head "frame_") in H.
  apply string_app_inv_tail in H. rewrite <- H. apply indexOfDigits_padStart.
Qed.

Lemma framePath_inj (tmpDir : string) (i j : nat) :
  framePath tmpDir i = framePath tmpDir j -> i = j.
Proof.
  intros H. symmetry in H. apply framePath_index in H.
  rewrite indexOfDigits_padStart in H. congruence.
Qed.

Lemma framePath_not_blank (tmpDir : string) (i : nat) :
  framePath tmpDir i <> blankPathOf tmpDir.
Proof.
  intros H. apply (framePath_index tmpDir i "blank") in H. discriminate.
Qed.

(** X6. The files of two frames of a run have the same name only when
    the frames have the same index, whatever the number of frames, and no
    frame is written over the blank frame. *)
Theorem frame_paths_distinct (tmpDir : string) (i j : nat) :
  (framePath tmpDir i = framePath tmpDir j <-> i = j) /\
  framePath tmpDir i <> blankPathOf tmpDir.
Proof.
  split; [split|].
  - apply framePath_inj.
  - intros ->. reflexivity.
  - apply framePath_not_blank.
Qed.

Lemma frameFilesFrom_paths (tmpDir : string) (frames : list Chunk) (i : nat) :
  map path (frameFilesFrom tmpDir i frames)
  = map (framePath tmpDir) (seq i (length frames)).
Proof.
  revert i. induction frames as [|frame rest IH]; intros i; simpl;
    [reflexivity | now rewrite IH].
Qed.

(** X7. In a run, the entries of the concat file other than the blank ones
    name the frame files in order, frame_0000.png, frame_0001.png and so on,
    one for each frame. *)
Theorem run_content_entries (ws : list Word) (style : Style) (mode tmpDir : string)
        (probed : Q) :
  map fst (filter (fun e => negb (isFiller (blankPathOf tmpDir) e))
                  (entries (timelineOfRun ws style mode tmpDir probed)))
  = map (framePath tmpDir) (seq 0 (length (framesOfRun ws style mode))).
Proof.
  unfold timelineOfRun. rewrite buildConcatFile_content.
  - rewrite map_map. change (fun x => fst (contentEntry x)) with path.
    rewrite renderFrames_eq. apply frameFilesFrom_paths.
  - apply Forall_forall. intros f Hin.
    apply (in_map path) in Hin.
    rewrite renderFrames_eq, frameFilesFrom_paths in Hin.
    apply in_map_iff in Hin. destruct Hin as [i [<- _]].
    apply framePath_not_blank.
Qed.

(** ** The lines of a frame *)

Lemma linesFrom_nth (m : nat) (ws : list Word) :
  (1 <= m)%nat ->
  forall fuel i k, (length ws - i <= fuel)%nat ->
    nth_error (linesFrom fuel m ws i) k
    = if (i + k * m <? length ws)%nat
      then Some (firstn m (skipn (i + k * m) ws))
      else None.
Proof.
  intros Hm. induction fuel as [|fuel IH]; intros i k Hfuel; simpl.
  - assert (E : (i + k * m <? length ws)%nat = false) by (apply Nat.ltb_ge; lia).
    rewrite E. destruct k; reflexivity.
  - destruct (i <? length ws)%nat eqn:Ei.
    + destruct k as [|k].
      * simpl. rewrite Nat.add_0_r, Ei. reflexivity.
      * simpl nth_error. apply Nat.ltb_lt in Ei. rewrite IH by lia.
        replace (i + m + k * m)%nat with (i + S k * m)%nat by (simpl; lia).
        reflexivity.
    + apply Nat.ltb_ge in Ei.
      assert (E : (i + k * m <? length ws)%nat = false) by (apply Nat.ltb_ge; lia).
      rewrite E. destruct k; reflexivity.
Qed.

Lemma splitLines_nth (m : nat) (ws : list Word) (k : nat) :
  (1 <= m)%nat ->
  nth_error (splitLines m ws) k
  = if (k * m <? length ws)%nat
    then Some (firstn m (skipn (k * m) ws))
    else None.
Proof.
  intros Hm. unfold splitLines.
  rewrite (linesFrom_nth m ws Hm) by lia. reflexivity.
Qed.

(** A list of lists whose entry [k] is the [k]-th run of [m] elements of
    [ws] has as many entries as [ws] has runs. *)
Lemma runs_count {A : Type} (m : nat) (ws : list A) (ls : list (list A)) :
  (1 <= m)%nat ->
  (forall k, nth_error ls k
             = if (k * m <? length ws)%nat
               then Some (firstn m (skipn (k * m) ws))
               else None) ->
  length ls = ((length ws + m - 1) / m)%nat.
Proof.
  intros Hm Hnth.
  set (L := length ls).
  assert (Hhi : (length ws <= L * m)%nat).
  { pose proof (Hnth L) as H.
    assert (Hnone : nth_error ls L = None) by (apply nth_error_None; unfold L; lia).
    rewrite Hnone in H.
    destruct (L * m <? length ws)%nat eqn:E; [discriminate|].
    apply Nat.ltb_ge in E. exact E. }
  assert (Hlo : (L = 0 \/ (L - 1) * m < length ws)%nat).
  { destruct L as [|L'] eqn:EL; [left; reflexivity | right].
    pose proof (Hnth L') as H.
    destruct (L' * m <? length ws)%nat eqn:E.
    - apply Nat.ltb_lt in E. simpl. rewrite Nat.sub_0_r. exact E.
    - assert (Hsome : nth_error ls L' <> None) by (apply nth_error_Some; unfold L in EL; lia).
      congruence. }
  destruct Hlo as [H0 | Hlo].
  - rewrite H0 in *. simpl in Hhi.
    assert (length ws = 0)%nat by lia.
    replace (length ws + m - 1)%nat with (m - 1)%nat by lia.
    symmetry. apply Nat.div_small. lia.
  - apply (Nat.div_unique _ _ _ (length ws + m - 1 - m * L)); nia.
Qed.

(** X8. The words of a frame are laid on lines of [maxWordsPerLine] words
    (2 when the style gives none or 0): line [k] holds the words from
    position [k * maxWordsPerLine] on, the last line what is left, and there
    are [ceil (n / maxWordsPerLine)] lines for [n] words. *)
Theorem splitLines_runs (style : Style) (ws : list Word) (k : nat) :
  let maxPerLine := or_nat (text_maxWordsPerLine style) 2 in
  nth_error (splitLines maxPerLine ws) k
  = (if (k * maxPerLine <? length ws)%nat
     then Some (firstn maxPerLine (skipn (k * maxPerLine) ws))
     else None) /\
  length (splitLines maxPerLine ws) = ((length ws + maxPerLine - 1) / maxPerLine)%nat /\
  concat (splitLines maxPerLine ws) = ws.
Proof.
  cbv zeta.
  assert (Hm : (1 <= or_nat (text_maxWordsPerLine style) 2)%nat)
    by (apply or_nat_pos; lia).
  split; [apply splitLines_nth; exact Hm|].
  split; [|apply splitLines_concat; exact Hm].
  apply runs_count; [exact Hm|]. intros j. apply splitLines_nth. exact Hm.
Qed.

(** ** The colours of a karaoke frame *)

Section SvgColours.
Variables (chunk : Chunk) (style : Style) (activeLang : string).

Let colourOf (wo : Word) : string * string :=
  if isActive chunk wo
  then (or_str (highlight_color style) "#FFD700",
        or_str (highlight_strokeColor style) "#000000")
  else (or_str (text_color style) "#FFFFFF",
        or_str (text_strokeColor style) "#000000").

Lemma karaokeWords_colours (y : Q) (lineWords : list Word)
      (acc : list TextElement) (xPos : Q) :
  map coloursOf
      (fst (fold_left (karaokeWordStep chunk style activeLang y) lineWords (acc, xPos)))
  = map coloursOf acc ++ map colourOf lineWords.
Proof.
  revert acc xPos. induction lineWords as [|wo lw IH]; intros acc xPos; simpl.
  - now rewrite app_nil_r.
  - rewrite IH, map_app, <- app_assoc. simpl. unfold colourOf at 2, coloursOf at 2.
    simpl. destruct (isActive chunk wo); reflexivity.
Qed.

Lemma karaokeLines_colours (ls : list (list Word)) (acc : list TextElement) (li : nat) :
  map coloursOf (fst (fold_left (karaokeLineStep chunk style activeLang) ls (acc, li)))
  = map coloursOf acc ++ map colourOf (concat ls).
Proof.
  revert acc li. induction ls as [|lw ls IH]; intros acc li; simpl.
  - now rewrite app_nil_r.
  - rewrite IH, karaokeWords_colours, map_app, <- app_assoc. reflexivity.
Qed.

Lemma karaoke_svg_colours :
  map coloursOf (svg_text (buildSvg chunk style "karaoke" activeLang))
  = map colourOf (words chunk).
Proof.
  unfold buildSvg. simpl svg_text. rewrite karaokeLines_colours. simpl app.
  rewrite splitLines_concat by (apply or_nat_pos; lia). reflexivity.
Qed.
End SvgColours.

Lemma map_constant {A B : Type} (f : A -> B) (c : B) (l : list A) :
  (forall x, In x l -> f x = c) -> map f l = repeat c (length l).
Proof.
  induction l as [|x l IH]; intros H; simpl; [reflexivity|].
  rewrite (H x (or_introl eq_refl)), IH; [reflexivity|].
  intros y Hy. apply H. right. exact Hy.
Qed.

Lemma separated_after (a : Word) (l : list Word) :
  separated (a :: l) -> positive_words (a :: l) ->
  forall wo, In wo l -> w_end a < w_start wo.
Proof.
  revert a. induction l as [|b r IH]; intros a Hsep Hpos wo Hin; [contradiction|].
  destruct Hsep as [Hab Hsep].
  inversion Hpos as [|? ? _ Hpos']; subst.
  destruct Hin as [<- | Hin]; [exact Hab|].
  pose proof (IH b Hsep Hpos' wo Hin) as H.
  inversion Hpos' as [|? ? [_ Hb] _]; subst. lra.
Qed.

Lemma separated_before (l : list Word) (a : Word) (r : list Word) :
  separated (l ++ a :: r) -> positive_words (l ++ a :: r) ->
  forall wo, In wo l -> w_end wo < w_start a.
Proof.
  induction l as [|x l IH]; intros Hsep Hpos wo Hin; [contradiction|].
  destruct Hin as [<- | Hin].
  - apply (separated_after x (l ++ a :: r) Hsep Hpos).
    apply in_or_app. right. left. reflexivity.
  - apply IH; [| |exact Hin].
    + change ((x :: l) ++ a :: r) with ([x] ++ (l ++ a :: r)) in Hsep.
      apply adjacent_app in Hsep. apply Hsep.
    + inversion Hpos; assumption.
Qed.

Lemma isActive_disjoint (c : Chunk) (wo : Word) (a b : Q) :
  activeStart c = Some a -> activeEnd c = Some b ->
  0 <= a -> a < b -> 0 <= w_start wo -> w_start wo <= w_end wo ->
  w_end wo < a \/ b < w_start wo ->
  isActive c wo = false.
Proof.
  intros Ha Hb H0a Hab H0s Hse Hdis.
  destruct (isActive c wo) eqn:E; [|reflexivity].
  apply (isActive_window c wo a b Ha Hb H0a Hab H0s Hse) in E.
  destruct E as [t [H1 [H2 [H3 H4]]]]. destruct Hdis; lra.
Qed.

(** X9. In a karaoke run over words that start at or after 0, last a
    positive time and have silence between them, the picture of a word's
    frame draws that word in the highlight colours and every other word of
    the chunk in the text colours. *)
Theorem karaoke_highlights_one_word (ws : list Word) (style : Style)
        (activeLang : string) (u : Chunk) (l1 : list Word) (wa : Word)
        (l2 : list Word) :
  positive_words ws -> separated ws ->
  In u (buildChunks ws style "karaoke") -> words u = l1 ++ wa :: l2 ->
  let plain := (or_str (text_color style) "#FFFFFF",
                or_str (text_strokeColor style) "#000000") in
  let highlighted := (or_str (highlight_color style) "#FFD700",
                      or_str (highlight_strokeColor style) "#000000") in
  map coloursOf (svg_text (buildSvg (karaokeFrame u wa) style "karaoke" activeLang))
  = repeat plain (length l1) ++ highlighted :: repeat plain (length l2).
Proof.
  intros Hpos Hsep Hu Hw. cbv zeta.
  destruct (in_concat_split (map words (buildChunks ws style "karaoke")) (words u)
              (in_map words _ _ Hu)) as [pre [post Heq]].
  rewrite buildChunks_concat in Heq. rewrite Heq, Hw in Hpos, Hsep.
  assert (Hpos' : positive_words (l1 ++ wa :: l2)).
  { unfold positive_words in *. apply Forall_app in Hpos. destruct Hpos as [_ Hpos].
    apply Forall_app in Hpos. apply Hpos. }
  assert (Hsep' : separated (l1 ++ wa :: l2)).
  { unfold separated in *. apply adjacent_app in Hsep. destruct Hsep as [_ Hsep].
    apply adjacent_app in Hsep. apply Hsep. }
  assert (Hwa : 0 <= w_start wa /\ w_start wa < w_end wa).
  { unfold positive_words in Hpos'. rewrite Forall_forall in Hpos'.
    apply Hpos'. apply in_or_app. right. left. reflexivity. }
  destruct Hwa as [Hwa0 Hwa1].
  rewrite karaoke_svg_colours. simpl words. rewrite Hw, map_app. simpl map.
  f_equal; [|f_equal].
  - apply map_constant. intros wo Hin.
    assert (Hwo : 0 <= w_start wo /\ w_start wo < w_end wo).
    { unfold positive_words in Hpos'. rewrite Forall_forall in Hpos'.
      apply Hpos'. apply in_or_app. left. exact Hin. }
    destruct Hwo as [Hwo0 Hwo1].
    rewrite (isActive_disjoint (karaokeFrame u wa) wo (w_start wa) (w_end wa));
      try reflexivity; try assumption; try lra.
    left. apply (separated_before l1 wa l2 Hsep' Hpos' wo Hin).
  - assert (E : isActive (karaokeFrame u wa) wa = true).
    { apply (isActive_window (karaokeFrame u wa) wa (w_start wa) (w_end wa));
        try reflexivity; try assumption; try lra.
      exists (w_start wa). repeat split; lra. }
    rewrite E. reflexivity.
  - apply map_constant. intros wo Hin.
    assert (Hpos2 : positive_words (wa :: l2)).
    { unfold positive_words in *. apply Forall_app in Hpos'. apply Hpos'. }
    assert (Hsep2 : separated (wa :: l2)).
    { unfold separated in *. apply adjacent_app in Hsep'. apply Hsep'. }
    assert (Hwo : 0 <= w_start wo /\ w_start wo < w_end wo).
    { unfold positive_words in Hpos2. rewrite Forall_forall in Hpos2.
      apply Hpos2. right. exact Hin. }
    destruct Hwo as [Hwo0 Hwo1].
    rewrite (isActive_disjoint (karaokeFrame u wa) wo (w_start wa) (w_end wa));
      try reflexivity; try assumption; try lra.
    right. apply (separated_after wa l2 Hsep2 Hpos2 wo Hin).
Qed.

(** X10. Two words that touch (the first ends exactly where the second
    starts) are both drawn active in the frame of either of them: the
    comparison of [buildSvg] includes both ends. *)
Theorem touching_words_both_active (u : Chunk) (a b : Word) :
  0 <= w_start a -> w_start a < w_end a ->
  w_end a == w_start b -> w_start b < w_end b ->
  isActive (karaokeFrame u a) b = true /\ isActive (karaokeFrame u b) a = true.
Proof.
  intros H0 Ha Hab Hb. split.
  - apply (isActive_window (karaokeFrame u a) b (w_start a) (w_end a));
      try reflexivity; try lra.
    exists (w_end a). repeat split; lra.
  - apply (isActive_window (karaokeFrame u b) a (w_start b) (w_end b));
      try reflexivity; try lra.
    exists (w_end a). repeat split; lra.
Qed.

Lemma touching_words_both_active_witness :
  isActive (karaokeFrame (mkChunk abcWords 0 3) (mkWord "a" 0 1)) (mkWord "b" 1 2) = true /\
  isActive (karaokeFrame (mkChunk abcWords 0 3) (mkWord "b" 1 2)) (mkWord "a" 0 1) = true.
Proof.
  apply (touching_words_both_active (mkChunk abcWords 0 3) (mkWord "a" 0 1)
                                    (mkWord "b" 1 2)).
  - vm_compute. discriminate.
  - vm_compute. reflexivity.
  - vm_compute. reflexivity.
  - vm_compute. reflexivity.
Defined.

Lemma karaoke_highlights_one_word_witness :
  map coloursOf
      (svg_text (buildSvg (karaokeFrame (mkChunk thisIs 0 (9 # 10))
                                        (mkWord "is" (5 # 10) (9 # 10)))
                          emptyStyle "karaoke" "en"))
  = repeat ("#FFFFFF", "#000000")%string 1
    ++ ("#FFD700", "#000000")%string :: repeat ("#FFFFFF", "#000000")%string 0.
Proof.
  apply (karaoke_highlights_one_word thisIs emptyStyle "en"%string
           (mkChunk thisIs 0 (9 # 10)) [mkWord "this" 0 (4 # 10)]
           (mkWord "is" (5 # 10) (9 # 10)) []).
  - repeat constructor; vm_compute; congruence.
  - simpl. split; [|exact I]. vm_compute. reflexivity.
  - vm_compute. left. reflexivity.
  - reflexivity.
Defined.

(** ** Chunks of words without pauses *)

Lemma groups_runs (pauseThreshold : Q) (m : nat) (groups : list (list Word)) :
  (1 <= m)%nat ->
  Forall (group_ok pauseThreshold m) groups ->
  adjacent (boundary pauseThreshold m) groups ->
  adjacent (close_words pauseThreshold) (concat groups) ->
  forall k,
    nth_error groups k
    = if (k * m <? length (concat groups))%nat
      then Some (firstn m (skipn (k * m) (concat groups)))
      else None.
Proof.
  intros Hm. induction groups as [|g rest IH]; intros Hok Hb Hclose k.
  - destruct k; reflexivity.
  - inversion Hok as [|? ? [Hne [Hlen _]] Hok']; subst.
    destruct rest as [|g2 r].
    + simpl concat. rewrite app_nil_r. destruct k as [|k].
      * simpl. destruct g as [|x g']; [congruence|]. simpl length.
        change (0 <? S (length g'))%nat with true. cbv iota.
        rewrite firstn_all2 by exact Hlen. reflexivity.
      * simpl nth_error.
        assert (E : (S k * m <? length g)%nat = false) by (apply Nat.ltb_ge; nia).
        rewrite E. destruct k; reflexivity.
    + assert (Hfull : length g = m).
      { destruct Hb as [Hb _].
        destruct (pop_nonempty g Hne) as [p Hp].
        inversion Hok' as [|? ? [Hne2 _] _]; subst.
        destruct g2 as [|n g2']; [congruence|].
        destruct (Hb p n Hp eq_refl) as [Hgap | Hge]; [|lia].
        exfalso. simpl concat in Hclose.
        pose proof (adjacent_junction _ g ((n :: g2') ++ concat r) p n Hclose Hp eq_refl)
          as Hc.
        unfold close_words in Hc. lra. }
      assert (Hclose' : adjacent (close_words pauseThreshold) (concat (g2 :: r))).
      { simpl concat in Hclose. apply adjacent_app in Hclose. apply Hclose. }
      assert (Hb' : adjacent (boundary pauseThreshold m) (g2 :: r)) by apply Hb.
      specialize (IH Hok' Hb' Hclose').
      set (rest := g2 :: r) in *.
      change (concat (g :: rest)) with (g ++ concat rest).
      rewrite length_app, Hfull.
      destruct k as [|k].
      * simpl Nat.mul. simpl skipn.
        assert (E : (0 <? m + length (concat rest))%nat = true) by (apply Nat.ltb_lt; lia).
        rewrite E. simpl nth_error.
        rewrite firstn_app, Hfull, Nat.sub_diag.
        assert (Hfirst : firstn m g = g) by (apply firstn_all2; lia).
        rewrite Hfirst. simpl. rewrite app_nil_r. reflexivity.
      * simpl nth_error. rewrite IH.
        replace (S k * m)%nat with (m + k * m)%nat by (simpl; lia).
        rewrite (skipn_app (m + k * m) g), Hfull.
        assert (Hskip : skipn (m + k * m) g = []) by (apply skipn_all2; lia).
        rewrite Hskip.
        replace (m + k * m - m)%nat with (k * m)%nat by lia.
        simpl app.
        destruct (k * m <? length (concat rest))%nat eqn:E.
        -- apply Nat.ltb_lt in E.
           assert (E' : (m + k * m <? m + length (concat rest))%nat = true)
             by (apply Nat.ltb_lt; lia).
           rewrite E'. reflexivity.
        -- apply Nat.ltb_ge in E.
           assert (E' : (m + k * m <? m + length (concat rest))%nat = false)
             by (apply Nat.ltb_ge; lia).
           rewrite E'. reflexivity.
Qed.

Lemma groupWords_runs (pauseThreshold : Q) (m : nat) (ws : list Word) (k : nat) :
  (1 <= m)%nat ->
  adjacent (close_words pauseThreshold) ws ->
  nth_error (map words (groupWords pauseThreshold m ws)) k
  = if (k * m <? length ws)%nat
    then Some (firstn m (skipn (k * m) ws))
    else None.
Proof.
  intros Hm Hclose.
  pose proof (groupWords_spec pauseThreshold m Hm ws) as [Hc [_ [Hg Hb]]].
  rewrite <- Hc in Hclose.
  rewrite (groups_runs pauseThreshold m _ Hm Hg Hb Hclose k), Hc. reflexivity.
Qed.

(** X11. When no word follows its predecessor by more than the pause
    threshold, chunk mode cuts the words every [maxChunkSize] words: chunk
    [k] holds the words from position [k * maxChunkSize] on, the last chunk
    what is left, and there are [ceil (n / maxChunkSize)] chunks for [n]
    words. *)
Theorem chunks_without_pauses (ws : list Word) (style : Style) (k : nat) :
  adjacent (close_words (pauseThreshold_of style)) ws ->
  let maxChunkSize := maxChunkSize_of style in
  nth_error (map words (buildChunks ws style "chunk")) k
  = (if (k * maxChunkSize <? length ws)%nat
     then Some (firstn maxChunkSize (skipn (k * maxChunkSize) ws))
     else None) /\
  length (buildChunks ws style "chunk")
  = ((length ws + maxChunkSize - 1) / maxChunkSize)%nat.
Proof.
  intros Hclose. cbv zeta. unfold buildChunks. simpl String.eqb. cbv iota.
  split.
  - apply groupWords_runs; [apply maxChunkSize_pos | exact Hclose].
  - rewrite <- (length_map words).
    apply runs_count; [apply maxChunkSize_pos|].
    intros j. apply groupWords_runs; [apply maxChunkSize_pos | exact Hclose].
Qed.

Lemma chunks_without_pauses_witness :
  let maxChunkSize := maxChunkSize_of (styleWithMaxChunkSize 2) in
  nth_error (map words (buildChunks abcWords (styleWithMaxChunkSize 2) "chunk")) 1
  = (if (1 * maxChunkSize <? length abcWords)%nat
     then Some (firstn maxChunkSize (skipn (1 * maxChunkSize) abcWords))
     else None) /\
  length (buildChunks abcWords (styleWithMaxChunkSize 2) "chunk")
  = ((length abcWords + maxChunkSize - 1) / maxChunkSize)%nat.
Proof.
  apply (chunks_without_pauses abcWords (styleWithMaxChunkSize 2) 1).
  simpl. repeat split; vm_compute; discriminate.
Defined.

(** ** What escaping changes *)

Lemma string_length_app (a b : string) :
  String.length (a ++ b) = (String.length a + String.length b)%nat.
Proof.
  induction a as [|c a IH]; simpl; [reflexivity | now rewrite IH].
Qed.

Lemma entity_plain (a : ascii) :
  isSpecialChar a = false -> entity a = String a EmptyString.
Proof.
  destruct a as [[] [] [] [] [] [] [] []]; intros H; try reflexivity; discriminate H.
Qed.

Lemma entity_special (a : ascii) :
  isSpecialChar a = true -> (4 <= String.length (entity a))%nat.
Proof.
  destruct a as [[] [] [] [] [] [] [] []]; intros H; try discriminate H; simpl; lia.
Qed.

Lemma entity_length (a : ascii) : (1 <= String.length (entity a))%nat.
Proof.
  destruct a as [[] [] [] [] [] [] [] []]; simpl; lia.
Qed.

Lemma escapeEach_length (s : string) :
  (String.length s <= String.length (escapeEach s))%nat.
Proof.
  induction s as [|a s IH]; simpl; [lia|].
  rewrite string_length_app. pose proof (entity_length a). lia.
Qed.

Lemma escapeEach_fixed (s : string) : escapeEach s = s <-> plainText s = true.
Proof.
  induction s as [|a s IH]; simpl; [tauto|].
  destruct (isSpecialChar a) eqn:E; simpl.
  - split; [|discriminate]. intros H. exfalso.
    apply (f_equal String.length) in H. rewrite string_length_app in H. simpl in H.
    pose proof (entity_special a E). pose proof (escapeEach_length s). lia.
  - rewrite (entity_plain a E). simpl. rewrite <- IH. split.
    + intros H. injection H as H. exact H.
    + intros H. now rewrite H.
Qed.

(** X12. [escapeXml] returns a text unchanged exactly when the text holds
    none of the five characters [&], [<], [>], double quote and apostrophe;
    it never makes a text shorter. *)
Theorem escapeXml_unchanged_iff_plain (s : string) :
  (escapeXml s = s <-> plainText s = true) /\
  (String.length s <= String.length (escapeXml s))%nat.
Proof.
  rewrite escapeXml_escapeEach. split.
  - apply escapeEach_fixed.
  - apply escapeEach_length.
Qed.

Lemma unescape_entity (a : ascii) (rest : string) :
  unescapeFrom 0 (entity a ++ rest) = String a (unescapeFrom 0 rest).
Proof.
  destruct a as [[] [] [] [] [] [] [] []]; try reflexivity;
    cbn; destruct rest; reflexivity.
Qed.

Lemma unescape_escapeEach (s : string) : unescapeFrom 0 (escapeEach s) = s.
Proof.
  induction s as [|a s IH]; [reflexivity|].
  simpl escapeEach. rewrite unescape_entity, IH. reflexivity.
Qed.

(** X13. Escaping loses nothing: reading the five entities back gives the
    text that was escaped, so two texts have the same escaped form only
    when they are the same text. *)
Theorem escapeXml_round_trip (s t : string) :
  unescapeXml (escapeXml s) = s /\
  (escapeXml s = escapeXml t <-> s = t).
Proof.
  assert (H : forall x, unescapeXml (escapeXml x) = x).
  { intros x. unfold unescapeXml. rewrite escapeXml_escapeEach.
    apply unescape_escapeEach. }
  split; [apply H|]. split.
  - intros E. rewrite <- (H s), <- (H t), E. reflexivity.
  - intros ->. reflexivity.
Qed.

(** ** The command line *)

Lemma flagOf_flagName (f : Flag) : flagOf (flagName f) = Some f.
Proof. destruct f; reflexivity. Qed.

Lemma getOption_setOption (f g : Flag) (v : option string) (opts : Opts) :
  getOption f (setOption g v opts) = if Flag_eqb f g then v else getOption f opts.
Proof. destruct f, g; reflexivity. Qed.

Lemma parseLoop_pairs (pairs : list (Flag * string)) (opts : Opts) (f : Flag) :
  getOption f (parseLoop (argsOf pairs) opts)
  = match lastValue f pairs with
    | Some v => Some v
    | None => getOption f opts
    end.
Proof.
  revert opts. induction pairs as [|[g v] rest IH]; intros opts; [reflexivity|].
  simpl argsOf. simpl parseLoop. rewrite flagOf_flagName, IH. simpl lastValue.
  destruct (lastValue f rest); [reflexivity|].
  rewrite getOption_setOption. destruct (Flag_eqb f g); reflexivity.
Qed.

(** X14. For a command line made of known flags, each followed by its
    value: every option ends with the value given last for its flag, or with
    its default when the flag is absent (output.mp4, the style beside the
    scripts, mode chunk, no words, audio or language); and the command line
    is refused with exit code 1 exactly when the words file or the audio
    file is absent or empty. *)
Theorem parseArgs_pairs (defaultStyle : string) (pairs : list (Flag * string)) :
  match parseArgs defaultStyle (argsOf pairs) with
  | ParsedOk opts =>
      (forall f, getOption f opts = optionAfter defaultStyle pairs f) /\
      missing (lastValue FWords pairs) = false /\
      missing (lastValue FAudio pairs) = false
  | ParsedExit code _ =>
      code = 1%nat /\
      (missing (lastValue FWords pairs) = true \/
       missing (lastValue FAudio pairs) = true)
  end.
Proof.
  unfold parseArgs.
  pose proof (parseLoop_pairs pairs (defaultOpts defaultStyle) FWords) as Hw.
  pose proof (parseLoop_pairs pairs (defaultOpts defaultStyle) FAudio) as Ha.
  simpl getOption in Hw, Ha.
  assert (Hw' : opt_words (parseLoop (argsOf pairs) (defaultOpts defaultStyle))
                = lastValue FWords pairs)
    by (rewrite Hw; destruct (lastValue FWords pairs); reflexivity).
  assert (Ha' : opt_audio (parseLoop (argsOf pairs) (defaultOpts defaultStyle))
                = lastValue FAudio pairs)
    by (rewrite Ha; destruct (lastValue FAudio pairs); reflexivity).
  rewrite Hw', Ha'.
  destruct (missing (lastValue FWords pairs)) eqn:Ew.
  - split; [reflexivity | left; reflexivity].
  - destruct (missing (lastValue FAudio pairs)) eqn:Ea.
    + split; [reflexivity | right; reflexivity].
    + split; [|split; reflexivity].
      intros f. unfold optionAfter. apply parseLoop_pairs.
Qed.

Lemma parseLoop_app_pairs (pairs : list (Flag * string)) (tail : list string)
      (opts : Opts) :
  parseLoop (argsOf pairs ++ tail) opts
  = parseLoop tail (parseLoop (argsOf pairs) opts).
Proof.
  revert opts. induction pairs as [|[g v] rest IH]; intros opts; [reflexivity|].
  simpl argsOf. simpl app. simpl parseLoop. rewrite flagOf_flagName. apply IH.
Qed.

(** X15. A known flag that ends the command line without a value leaves
    its option undefined, whatever was given or defaulted before; the other
    options keep their values. *)
Theorem parseLoop_dangling_flag (pairs : list (Flag * string)) (f g : Flag)
        (opts : Opts) :
  getOption g (parseLoop (argsOf pairs ++ [flagName f]) opts)
  = if Flag_eqb g f then None else getOption g (parseLoop (argsOf pairs) opts).
Proof.
  rewrite parseLoop_app_pairs. simpl parseLoop. rewrite flagOf_flagName.
  apply getOption_setOption.
Qed.

(** ** Right-to-left languages *)

Lemma lowerChar_idempotent (c : ascii) : lowerChar (lowerChar c) = lowerChar c.
Proof.
  destruct c as [[] [] [] [] [] [] [] []]; reflexivity.
Qed.

Lemma toLowerCase_idempotent (s : string) : toLowerCase (toLowerCase s) = toLowerCase s.
Proof.
  induction s as [|c s IH]; simpl; [reflexivity|].
  now rewrite lowerChar_idempotent, IH.
Qed.

Lemma toLowerCase_app (a b : string) :
  toLowerCase (a ++ b) = (toLowerCase a ++ toLowerCase b)%string.
Proof.
  induction a as [|c a IH]; simpl; [reflexivity | now rewrite IH].
Qed.

Lemma beforeDash_app_dash (a b : string) :
  beforeDash (a ++ String "-" b) = beforeDash a.
Proof.
  induction a as [|c a IH]; simpl; [reflexivity|].
  destruct (Ascii.eqb c "-"); [reflexivity | now rewrite IH].
Qed.

Lemma isRTL_eq (lang : string) :
  isRTL lang = existsb (String.eqb (beforeDash (toLowerCase lang))) RTL_LANGS.
Proof. destruct lang; reflexivity. Qed.

Section SvgDirection.
Variables (chunk : Chunk) (style : Style) (activeLang : string).

Let direction : string := if isRTL activeLang then "rtl" else "ltr".

Lemma karaokeWords_direction (y : Q) (lineWords : list Word)
      (acc : list TextElement) (xPos : Q) :
  map te_direction
      (fst (fold_left (karaokeWordStep chunk style activeLang y) lineWords (acc, xPos)))
  = map te_direction acc ++ map (fun _ => direction) lineWords.
Proof.
  revert acc xPos. induction lineWords as [|wo lw IH]; intros acc xPos; simpl.
  - now rewrite app_nil_r.
  - rewrite IH, map_app, <- app_assoc. reflexivity.
Qed.

Lemma karaokeLines_direction (ls : list (list Word)) (acc : list TextElement) (li : nat) :
  map te_direction (fst (fold_left (karaokeLineStep chunk style activeLang) ls (acc, li)))
  = map te_direction acc ++ map (fun _ => direction) (concat ls).
Proof.
  revert acc li. induction ls as [|lw ls IH]; intros acc li; simpl.
  - now rewrite app_nil_r.
  - rewrite IH, karaokeWords_direction, map_app, <- app_assoc. reflexivity.
Qed.

Lemma plainLines_direction (ls : list (list Word)) (acc : list TextElement) (li : nat) :
  map te_direction (fst (fold_left (plainLineStep chunk style activeLang) ls (acc, li)))
  = map te_direction acc ++ map (fun _ => direction) ls.
Proof.
  revert acc li. induction ls as [|lw ls IH]; intros acc li; simpl.
  - now rewrite app_nil_r.
  - rewrite IH, map_app, <- app_assoc. reflexivity.
Qed.

Lemma svg_direction (mode : string) :
  Forall (fun te => te_direction te = direction)
         (svg_text (buildSvg chunk style mode activeLang)).
Proof.
  apply Forall_forall. intros te Hin.
  apply (in_map te_direction) in Hin.
  unfold buildSvg in Hin. simpl svg_text in Hin.
  destruct (String.eqb mode "karaoke").
  - rewrite karaokeLines_direction in Hin. simpl in Hin.
    apply in_map_iff in Hin. destruct Hin as [w [Hw _]]. now rewrite <- Hw.
  - rewrite plainLines_direction in Hin. simpl in Hin.
    apply in_map_iff in Hin. destruct Hin as [w [Hw _]]. now rewrite <- Hw.
Qed.
End SvgDirection.

(** X16. Whether a language is written right to left depends only on the
    part of its tag before the first dash and not on the case of its
    letters; and every text element of a picture carries the direction
    [rtl] for such a language and [ltr] for any other. *)
Theorem isRTL_primary_subtag (lang region : string) (chunk : Chunk) (style : Style)
        (mode : string) :
  isRTL (lang ++ String "-" region) = isRTL lang /\
  isRTL (toLowerCase lang) = isRTL lang /\
  Forall (fun te => te_direction te = if isRTL lang then "rtl"%string else "ltr"%string)
         (svg_text (buildSvg chunk style mode lang)).
Proof.
  split; [|split].
  - rewrite !isRTL_eq, toLowerCase_app. simpl toLowerCase.
    change (lowerChar "-") with "-"%char. rewrite beforeDash_app_dash. reflexivity.
  - rewrite !isRTL_eq, toLowerCase_idempotent. reflexivity.
  - apply svg_direction.
Qed.

(** ** Polling Telegram *)

Lemma Math_max_ids_spec (others : list Z) (first : Z) :
  (first <= Math_max_ids first others)%Z /\
  Forall (fun i => (i <= Math_max_ids first others)%Z) others /\
  In (Math_max_ids first others) (first :: others).
Proof.
  unfold Math_max_ids. revert first.
  induction others as [|x others IH]; intros first; simpl.
  - split; [lia|]. split; [constructor | left; reflexivity].
  - destruct (IH (Z.max first x)) as [H1 [H2 H3]].
    split; [lia|]. split.
    + constructor; [lia | exact H2].
    + destruct H3 as [H3 | H3]; [|right; right; exact H3].
      rewrite <- H3.
      destruct (Z.max_spec first x) as [[_ E] | [_ E]]; rewrite E;
        [right; left | left]; reflexivity.
Qed.

(** X17. Whenever Telegram returned updates, the offset that is saved is
    one more than the largest update id and so lies beyond every update
    received, audio or not; without updates nothing is saved. *)
Theorem saved_offset_beyond_updates (allowedChatId : option Z)
        (updates : list Update) :
  match savedOffsetOf (pollUpdates allowedChatId updates) with
  | None => updates = []
  | Some offset =>
      Forall (fun u => (update_id u < offset)%Z) updates /\
      exists u, In u updates /\ offset = (update_id u + 1)%Z
  end.
Proof.
  destruct updates as [|u rest]; [reflexivity|].
  assert (H : savedOffsetOf (pollUpdates allowedChatId (u :: rest))
              = Some (Math_max_ids (update_id u) (map update_id rest) + 1)%Z).
  { unfold pollUpdates.
    destruct (pop (filter (isAudioUpdate allowedChatId) (u :: rest))); reflexivity. }
  rewrite H.
  destruct (Math_max_ids_spec (map update_id rest) (update_id u)) as [H1 [H2 H3]].
  split.
  - constructor; [lia|].
    rewrite Forall_map in H2. eapply Forall_impl; [|exact H2].
    intros a Ha. simpl in Ha. lia.
  - change (update_id u :: map update_id rest) with (map update_id (u :: rest)) in H3.
    apply in_map_iff in H3. destruct H3 as [v [Hv Hin]].
    exists v. split; [exact Hin | now rewrite Hv].
Qed.

Lemma filter_nil_Forall {A : Type} (p : A -> bool) (l : list A) :
  filter p l = [] -> Forall (fun x => p x = false) l.
Proof.
  induction l as [|a l IH]; simpl; intros H; [constructor|].
  destruct (p a) eqn:E; [discriminate|]. constructor; [exact E | apply IH; exact H].
Qed.

Lemma pop_filter {A : Type} (p : A -> bool) (l : list A) (x : A) :
  pop (filter p l) = Some x ->
  exists before after,
    l = before ++ x :: after /\ p x = true /\ Forall (fun y => p y = false) after.
Proof.
  induction l as [|a l IH]; intros H; [discriminate|].
  destruct (filter p l) as [|y ys] eqn:Ef.
  - simpl in H. rewrite Ef in H. destruct (p a) eqn:Ea; [|discriminate].
    simpl in H. injection H as <-.
    exists [], l. split; [reflexivity|]. split; [exact Ea|].
    apply filter_nil_Forall. exact Ef.
  - assert (Hp : pop (y :: ys) = Some x).
    { simpl in H. rewrite Ef in H. destruct (p a); [|exact H].
      rewrite <- H. change (a :: y :: ys) with ([a] ++ (y :: ys)).
      symmetry. apply pop_app_r. discriminate. }
    destruct (IH Hp) as [before [after [Hl [Hx Hafter]]]].
    exists (a :: before), after. split; [now rewrite Hl|]. split; assumption.
Qed.

(** X18. The update whose audio is downloaded is the last one of the batch
    that carries a voice message, an audio file or a document with an audio
    type: no update after it does, whatever came before it is left
    aside, and with a non-zero allowed chat it comes from that chat; when
    no update of the batch carries audio, none is downloaded. *)
Theorem latest_audio_update (allowedChatId : option Z) (updates : list Update) :
  match pollUpdates allowedChatId updates with
  | AudioFound _ latest =>
      (exists before after,
          updates = before ++ latest :: after /\
          Forall (fun u => isAudioUpdate allowedChatId u = false) after) /\
      isAudioUpdate allowedChatId latest = true /\
      (forall c msg, allowedChatId = Some c -> c <> 0%Z ->
                     message latest = Some msg -> chat_id msg = c)
  | NoAudio _ => Forall (fun u => isAudioUpdate allowedChatId u = false) updates
  | NoUpdates => updates = []
  end.
Proof.
  destruct updates as [|u rest]; [reflexivity|].
  unfold pollUpdates.
  destruct (pop (filter (isAudioUpdate allowedChatId) (u :: rest))) as [latest|] eqn:E.
  - destruct (pop_filter _ _ _ E) as [before [after [Hl [Hx Hafter]]]].
    split; [exists before, after; split; assumption|].
    split; [exact Hx|].
    intros c msg Hc Hc0 Hmsg. unfold isAudioUpdate in Hx. rewrite Hmsg in Hx.
    destruct (wrongChat allowedChatId msg) eqn:Ew; [discriminate|].
    unfold wrongChat in Ew. rewrite Hc in Ew.
    apply andb_false_iff in Ew. destruct Ew as [Ew | Ew].
    + apply negb_false_iff in Ew. apply Z.eqb_eq in Ew. contradiction.
    + apply negb_false_iff in Ew. apply Z.eqb_eq in Ew. exact Ew.
  - apply filter_nil_Forall.
    destruct (filter (isAudioUpdate allowedChatId) (u :: rest)); [reflexivity | discriminate].
Qed.

(** ** The number of text elements and the durations written *)

(** X19. A picture has one text element for each word of the chunk in
    karaoke mode, and one for each line, [ceil (n / maxWordsPerLine)] for
    [n] words, in the other modes. *)
Theorem svg_text_count (chunk : Chunk) (style : Style) (mode activeLang : string) :
  let maxPerLine := or_nat (text_maxWordsPerLine style) 2 in
  length (svg_text (buildSvg chunk style mode activeLang))
  = if String.eqb mode "karaoke"
    then length (words chunk)
    else ((length (words chunk) + maxPerLine - 1) / maxPerLine)%nat.
Proof.
  cbv zeta.
  assert (Hm : (1 <= or_nat (text_maxWordsPerLine style) 2)%nat)
    by (apply or_nat_pos; lia).
  rewrite <- (length_map escapedParts).
  unfold buildSvg. simpl svg_text. destruct (String.eqb mode "karaoke").
  - rewrite karaokeLines_parts. simpl app.
    rewrite splitLines_concat by exact Hm. apply length_map.
  - rewrite plainLines_parts. simpl app. rewrite length_map.
    apply runs_count; [exact Hm|]. intros j. apply splitLines_nth. exact Hm.
Qed.

Lemma toFixed4_above (d : Q) : 1 # 100 < d -> (100 <= toFixed4 d)%Z.
Proof.
  intros Hd. unfold toFixed4.
  assert (E : Qlt_bool d 0 = false) by (apply Qlt_bool_false_iff; lra).
  rewrite E. rewrite <- (Qfloor_Z 100). apply Qfloor_resp_le.
  change (inject_Z 100) with 100. lra.
Qed.

(** X20. Whatever the frames, every duration line of the concat file shows
    at least 0.0100 (its four decimals are 100 ten-thousandths or more), so
    no zero or negative duration is written, except when the file is the
    blank frame alone, which is given the audio duration as it is. *)
Theorem durations_written (frameFiles : list FrameFile) (blankPath : string)
        (audioDuration : Q) :
  entries (buildConcatFile frameFiles blankPath audioDuration)
  = [(blankPath, audioDuration)] \/
  Forall (fun e => (100 <= toFixed4 (snd e))%Z)
         (entries (buildConcatFile frameFiles blankPath audioDuration)).
Proof.
  rewrite entries_buildConcatFile.
  pose proof (timelineFrom_durations blankPath audioDuration frameFiles 0) as H.
  destruct (timelineFrom blankPath audioDuration 0 frameFiles) as [|e es].
  - left. reflexivity.
  - right. eapply Forall_impl; [|exact H].
    intros a Ha. apply toFixed4_above. exact Ha.
Qed.
